(** * pkg/git/service.go: the git service execution engine

    A shallow embedding of [Service], [ServiceCommand], [Service.Handler],
    [gitServiceHandler] and the exported wrappers of package [git].

    The handler is stateful and concurrent: it builds an [exec.Cmd], asks
    the operating system for pipes, starts a child, forks up to three
    goroutines and joins two of them on a [sync.WaitGroup].  It is embedded
    as an executable step function on an explicit state, one step per
    statement of the source, driven by a schedule (the order in which the
    Go runtime lets the goroutines run) and by a [World] holding everything
    the operating system and the [os/exec] library decide.

    The calls in which the program waits for the child, [io.Copy] on a
    pipe and [cmd.Wait()], are steps that take the answer of the world.
    How long the program stays in such a call, and whether it leaves it,
    is up to the child and is not part of the model: what is proved is
    the order of what a run does and the value it returns when it
    returns, not that it returns. *)

From Stdlib Require Import String Ascii List Bool Arith ZArith Lia.
From Stdlib Require Import Strings.Byte.
Import ListNotations.
Open Scope string_scope.
Open Scope list_scope.

(* ------------------------------------------------------------------ *)
(** ** Strings *)

(** [strings.HasPrefix(s, prefix)]. *)
Definition HasPrefix (s prefix : string) : bool := String.prefix prefix s.

(** [strings.TrimPrefix(s, prefix)]: [s] without the leading [prefix],
    or [s] itself when it does not start with [prefix]. *)
Definition TrimPrefix (s prefix : string) : string :=
  if HasPrefix s prefix
  then substring (String.length prefix) (String.length s - String.length prefix) s
  else s.

(* ------------------------------------------------------------------ *)
(** ** Errors

    The error values the handler can meet: the [os.ErrNotExist]
    sentinel, the package's own [ErrInvalidRepo], a raw [syscall.Errno],
    the wrappers [*fs.PathError] and [*exec.Error] (both have [Unwrap]),
    [*exec.ExitError] with the exit description of its process state
    and its [Stderr] field, and the plain string errors of [errors.New]
    and [fmt.Errorf]. *)
Inductive error : Type :=
| ErrNotExist
(** Modelled from the spec: [ErrInvalidRepo] is declared in another file
    of package [git]; it is the distinguished "invalid repository"
    condition, a sentinel different from every other error. *)
| ErrInvalidRepo
| Errno (n : Z)
| PathError (op path : string) (err : error)
| ExecError (name : string) (err : error)
| ExitError (state : string) (Stderr : list byte)
| ErrorString (msg : string).

(** [syscall.ENOENT]. *)
Definition ENOENT : Z := 2.

(** [errors.Is(err, os.ErrNotExist)]: walk the [Unwrap] chain; a link
    matches when it is the sentinel itself or when its [Is] method says
    so ([syscall.Errno.Is] answers [e == ENOENT] for this target). *)
Fixpoint errors_Is_ErrNotExist (err : error) : bool :=
  match err with
  | ErrNotExist => true
  | Errno n => Z.eqb n ENOENT
  | PathError _ _ err' => errors_Is_ErrNotExist err'
  | ExecError _ err' => errors_Is_ErrNotExist err'
  | ErrInvalidRepo | ExitError _ _ | ErrorString _ => false
  end.

(** [errors.As(err, &exitErr)] for [exitErr *exec.ExitError]: the first
    exit error on the [Unwrap] chain, if any. *)
Fixpoint errors_As_ExitError (err : error) : option (string * list byte) :=
  match err with
  | ExitError state stderr => Some (state, stderr)
  | PathError _ _ err' => errors_As_ExitError err'
  | ExecError _ err' => errors_As_ExitError err'
  | ErrNotExist | ErrInvalidRepo | Errno _ | ErrorString _ => None
  end.

(* ------------------------------------------------------------------ *)
(** ** Service *)

(** [type Service string]. *)
Definition Service : Type := string.

Definition UploadPackService : Service := "git-upload-pack".
Definition UploadArchiveService : Service := "git-upload-archive".
Definition ReceivePackService : Service := "git-receive-pack".
Definition LFSTransferService : Service := "git-lfs-transfer".
Definition LFSAuthenticateService : Service := "git-lfs-authenticate".

(** [func (s Service) String() string]. *)
Definition Service_String (s : Service) : string := s.

(** [func (s Service) Name() string]. *)
Definition Service_Name (s : Service) : string :=
  TrimPrefix (Service_String s) "git-".

(* ------------------------------------------------------------------ *)
(** ** The request descriptor and the child-process configuration *)

(** [context.Context], [io.Reader] and [io.Writer] values are opaque
    handles: the handler only passes them on. *)
Definition Context : Type := nat.
Definition Reader : Type := nat.
Definition Writer : Type := nat.

(** The three standard streams of the child. *)
Inductive stream : Type := Stdin | Stdout | Stderr.

(** [exec.Cmd], with the fields the handler or its hook can reach.  The
    three [c*Pipe] flags stand for [cmd.Stdin], [cmd.Stdout] and
    [cmd.Stderr] having been connected by [StdinPipe], [StdoutPipe] and
    [StderrPipe]. *)
Record Cmd : Type := mkCmd {
  cCtx : Context;
  cPath : string;
  cArgs : list string;
  cEnv : list string;
  cDir : string;
  cStdinPipe : bool;
  cStdoutPipe : bool;
  cStderrPipe : bool
}.

(** [type ServiceCommand struct]. *)
Record ServiceCommand : Type := mkServiceCommand {
  scStdin : option Reader;
  scStdout : option Writer;
  scStderr : option Writer;
  scDir : string;
  scEnv : list string;
  scArgs : list string;
  scCmdFunc : option (Cmd -> Cmd)
}.

(** [exec.CommandContext(ctx, name)]: [Args] holds the program name. *)
Definition CommandContext (ctx : Context) (name : string) : Cmd :=
  {| cCtx := ctx; cPath := name; cArgs := [name]; cEnv := [];
     cDir := ""; cStdinPipe := false; cStdoutPipe := false;
     cStderrPipe := false |}.

Definition set_Dir (c : Cmd) (d : string) : Cmd :=
  {| cCtx := cCtx c; cPath := cPath c; cArgs := cArgs c; cEnv := cEnv c;
     cDir := d; cStdinPipe := cStdinPipe c; cStdoutPipe := cStdoutPipe c;
     cStderrPipe := cStderrPipe c |}.

Definition set_Args (c : Cmd) (a : list string) : Cmd :=
  {| cCtx := cCtx c; cPath := cPath c; cArgs := a; cEnv := cEnv c;
     cDir := cDir c; cStdinPipe := cStdinPipe c; cStdoutPipe := cStdoutPipe c;
     cStderrPipe := cStderrPipe c |}.

Definition set_Env (c : Cmd) (e : list string) : Cmd :=
  {| cCtx := cCtx c; cPath := cPath c; cArgs := cArgs c; cEnv := e;
     cDir := cDir c; cStdinPipe := cStdinPipe c; cStdoutPipe := cStdoutPipe c;
     cStderrPipe := cStderrPipe c |}.

(** A pipe call connects the matching stream of the command. *)
Definition connect (c : Cmd) (s : stream) : Cmd :=
  {| cCtx := cCtx c; cPath := cPath c; cArgs := cArgs c; cEnv := cEnv c;
     cDir := cDir c;
     cStdinPipe := match s with Stdin => true | _ => cStdinPipe c end;
     cStdoutPipe := match s with Stdout => true | _ => cStdoutPipe c end;
     cStderrPipe := match s with Stderr => true | _ => cStderrPipe c end |}.

(** The flags of lines 64-69, ahead of the subcommand. *)
Definition safetyFlags : list string :=
  [ "-c"; "uploadpack.allowFilter=true";
    "-c"; "receive.advertisePushOptions=true";
    "-c"; "filter.lfs.required=";
    "-c"; "filter.lfs.smudge=";
    "-c"; "filter.lfs.clean=" ].

(** Lines 61-81 of [gitServiceHandler]: the command as it stands when the
    hook is consulted.  [environ] is the value of [os.Environ()]. *)
Definition buildCmd (environ : list string) (ctx : Context)
    (svc : Service) (scmd : ServiceCommand) : Cmd :=
  let cmd := CommandContext ctx "git" in
  let cmd := set_Dir cmd (scDir scmd) in
  let cmd := set_Args cmd (cArgs cmd ++ safetyFlags ++ [Service_Name svc]) in
  let cmd :=
    if Nat.ltb 0 (List.length (scArgs scmd))
    then set_Args cmd (cArgs cmd ++ scArgs scmd)
    else cmd in
  let cmd := set_Args cmd (cArgs cmd ++ ["."]) in
  let cmd := set_Env cmd environ in
  let cmd :=
    if Nat.ltb 0 (List.length (scEnv scmd))
    then set_Env cmd (cEnv cmd ++ scEnv scmd)
    else cmd in
  cmd.

(** Lines 83-85: the hook, when there is one, receives the command. *)
Definition applyHook (scmd : ServiceCommand) (cmd : Cmd) : Cmd :=
  match scCmdFunc scmd with
  | Some f => f cmd
  | None => cmd
  end.

(* ------------------------------------------------------------------ *)
(** ** The world outside the handler

    What the operating system and [os/exec] answer: the ambient
    environment, whether each pipe can be created, whether the child
    starts, how each [io.Copy] ends and what [cmd.Wait] reports.  [None]
    is Go's [nil] error.  The answers of [io.Copy] and [cmd.Wait] are
    those of the calls that come back; a world does not say when, or
    whether, they do. *)
Record World : Type := mkWorld {
  Environ : list string;
  pipeErr : stream -> Cmd -> option error;
  startErr : Cmd -> option error;
  copyErr : stream -> option error;
  waitErr : Cmd -> option error
}.

(** What an observer of one call can see, in the order it happens. *)
Inductive event : Type :=
| EvHook (c : Cmd)
| EvPipe (s : stream) (r : option error)
| EvStart (c : Cmd) (r : option error)
| EvGo (s : stream)
| EvCopy (s : stream) (r : option error)
| EvLog (format : string) (arg : option error)
| EvClose (s : stream)
| EvWgDone (s : stream)
| EvWgWait
| EvWait (r : option error).

(* ------------------------------------------------------------------ *)
(** ** The handler as a machine

    The main goroutine walks the statements of [gitServiceHandler]; each
    copy goroutine walks the body of its [go func()].  *)

(** Program points of the main goroutine (source lines in brackets). *)
Inductive mpc : Type :=
| MHook          (* 83-85 *)
| MStdinPipe     (* 94-99 *)
| MStdoutPipe    (* 101-106 *)
| MStderrPipe    (* 108-113 *)
| MStart         (* 115-120 *)
| MGoStdin       (* 125-132 *)
| MAddStdout     (* 135-136 *)
| MGoStdout      (* 137-142 *)
| MAddStderr     (* 146-147 *)
| MGoStderr      (* 148-153 *)
| MWgWait        (* 159 *)
| MCmdWait       (* 161 *)
| MClassify      (* 162-173 *)
| MReturned (r : option error).

(** Program points of a copy goroutine: the [io.Copy] call, the test
    that guards [log.Errorf] (with the value [io.Copy] returned), the
    deferred call, the end. *)
Inductive tpc : Type :=
| TCopy
| TCheck (r : option error)
| TDefer
| TDone.

(** The goroutines the scheduler can pick. *)
Inductive tid : Type :=
| Main
| Task (s : stream).

(** The state of one call: the by-value parameter [scmd], the local
    [cmd], the function-level variable [err] of line 88 (the closures of
    the goroutines capture it), the counter of the [sync.WaitGroup], the
    program points, and the events so far (oldest first). *)
Record State : Type := mkState {
  scmd : ServiceCommand;
  cmd : Cmd;
  err : option error;
  wg : nat;
  pc : mpc;
  tStdin : option tpc;
  tStdout : option tpc;
  tStderr : option tpc;
  trace : list event
}.

Definition task (s : stream) (st : State) : option tpc :=
  match s with
  | Stdin => tStdin st
  | Stdout => tStdout st
  | Stderr => tStderr st
  end.

Definition set_task (s : stream) (p : tpc) (st : State) : State :=
  {| scmd := scmd st; cmd := cmd st; err := err st; wg := wg st; pc := pc st;
     tStdin := match s with Stdin => Some p | _ => tStdin st end;
     tStdout := match s with Stdout => Some p | _ => tStdout st end;
     tStderr := match s with Stderr => Some p | _ => tStderr st end;
     trace := trace st |}.

Definition set_pc (p : mpc) (st : State) : State :=
  {| scmd := scmd st; cmd := cmd st; err := err st; wg := wg st; pc := p;
     tStdin := tStdin st; tStdout := tStdout st; tStderr := tStderr st;
     trace := trace st |}.

Definition set_cmd (c : Cmd) (st : State) : State :=
  {| scmd := scmd st; cmd := c; err := err st; wg := wg st; pc := pc st;
     tStdin := tStdin st; tStdout := tStdout st; tStderr := tStderr st;
     trace := trace st |}.

Definition set_err (e : option error) (st : State) : State :=
  {| scmd := scmd st; cmd := cmd st; err := e; wg := wg st; pc := pc st;
     tStdin := tStdin st; tStdout := tStdout st; tStderr := tStderr st;
     trace := trace st |}.

Definition set_wg (n : nat) (st : State) : State :=
  {| scmd := scmd st; cmd := cmd st; err := err st; wg := n; pc := pc st;
     tStdin := tStdin st; tStdout := tStdout st; tStderr := tStderr st;
     trace := trace st |}.

Definition emit (e : event) (st : State) : State :=
  {| scmd := scmd st; cmd := cmd st; err := err st; wg := wg st; pc := pc st;
     tStdin := tStdin st; tStdout := tStdout st; tStderr := tStderr st;
     trace := trace st ++ [e] |}.

(** Whether the caller supplied the source or sink of a stream. *)
Definition supplied (scmd : ServiceCommand) (s : stream) : bool :=
  match s with
  | Stdin => match scStdin scmd with Some _ => true | None => false end
  | Stdout => match scStdout scmd with Some _ => true | None => false end
  | Stderr => match scStderr scmd with Some _ => true | None => false end
  end.

(** One of the three blocks of lines 94-113:
    [if scmd.X != nil { x, err = cmd.XPipe(); if err != nil { return err } }]. *)
Definition pipeStep (w : World) (s : stream) (next : mpc) (st : State) : State :=
  if supplied (scmd st) s then
    match pipeErr w s (cmd st) with
    | Some e =>
        set_pc (MReturned (Some e))
          (set_err (Some e) (emit (EvPipe s (Some e)) st))
    | None =>
        set_pc next
          (set_err None (set_cmd (connect (cmd st) s) (emit (EvPipe s None) st)))
    end
  else set_pc next st.

(** Lines 116-119: what is returned for a failed [cmd.Start()]. *)
Definition classifyStart (e : error) : option error :=
  if errors_Is_ErrNotExist e then Some ErrInvalidRepo else Some e.

(** Lines 162-173: what is returned for the value of [cmd.Wait()]. *)
Definition classify (err : option error) : option error :=
  match err with
  | Some e =>
      if errors_Is_ErrNotExist e then Some ErrInvalidRepo
      else
        match errors_As_ExitError e with
        | Some (state, stderr) =>
            if Nat.ltb 0 (List.length stderr)
            then Some (ErrorString (state ++ ": " ++ string_of_list_byte stderr)%string)
            else Some e
        | None => Some e
        end
  | None => None
  end.

(** One statement of the main goroutine; [None] when it has returned or
    is blocked in [wg.Wait()].  The wait for the child inside
    [cmd.Wait()] is not modelled: the step at [MCmdWait] is the return
    of that call. *)
Definition stepMain (w : World) (st : State) : option State :=
  match pc st with
  | MHook =>
      match scCmdFunc (scmd st) with
      | Some f =>
          Some (set_pc MStdinPipe (set_cmd (f (cmd st)) (emit (EvHook (cmd st)) st)))
      | None => Some (set_pc MStdinPipe st)
      end
  | MStdinPipe => Some (pipeStep w Stdin MStdoutPipe st)
  | MStdoutPipe => Some (pipeStep w Stdout MStderrPipe st)
  | MStderrPipe => Some (pipeStep w Stderr MStart st)
  | MStart =>
      match startErr w (cmd st) with
      | Some e =>
          Some (set_pc (MReturned (classifyStart e))
                  (emit (EvStart (cmd st) (Some e)) st))
      | None => Some (set_pc MGoStdin (emit (EvStart (cmd st) None) st))
      end
  | MGoStdin =>
      if supplied (scmd st) Stdin
      then Some (set_pc MAddStdout (set_task Stdin TCopy (emit (EvGo Stdin) st)))
      else Some (set_pc MAddStdout st)
  | MAddStdout =>
      if supplied (scmd st) Stdout
      then Some (set_pc MGoStdout (set_wg (wg st + 1) st))
      else Some (set_pc MAddStderr st)
  | MGoStdout =>
      Some (set_pc MAddStderr (set_task Stdout TCopy (emit (EvGo Stdout) st)))
  | MAddStderr =>
      if supplied (scmd st) Stderr
      then Some (set_pc MGoStderr (set_wg (wg st + 1) st))
      else Some (set_pc MWgWait st)
  | MGoStderr =>
      Some (set_pc MWgWait (set_task Stderr TCopy (emit (EvGo Stderr) st)))
  | MWgWait =>
      if Nat.eqb (wg st) 0
      then Some (set_pc MCmdWait (emit EvWgWait st))
      else None
  | MCmdWait =>
      let r := waitErr w (cmd st) in
      Some (set_pc MClassify (set_err r (emit (EvWait r) st)))
  | MClassify => Some (set_pc (MReturned (classify (err st))) st)
  | MReturned _ => None
  end.

(** The format strings of the three [log.Errorf] calls. *)
Definition logFormat (s : stream) : string :=
  match s with
  | Stdin => "gitServiceHandler: failed to copy stdin: %v"
  | Stdout => "gitServiceHandler: failed to copy stdout: %v"
  | Stderr => "gitServiceHandler: failed to copy stderr: %v"
  end.

(** The test in front of [log.Errorf].  Lines 128 and 139 declare a new
    [err] in the [if] and test it; line 150 declares [erro] and tests
    [err], which there is the captured variable of line 88. *)
Definition copyFailed (s : stream) (r : option error) (st : State) : bool :=
  match s with
  | Stdin | Stdout => match r with Some _ => true | None => false end
  | Stderr => match err st with Some _ => true | None => false end
  end.

(** One statement of the copy goroutine of stream [s]; [None] when it
    was never started or has ended.  The step at [TCopy] is the return
    of [io.Copy]; the time the program spends in that call, until the
    child or the caller closes the stream, is not modelled.
    [wg.Done()] is written with the
    truncated subtraction of [nat]; the counter is at least one whenever
    it runs (see [concInv]), so Go's panic on a negative counter is out
    of reach. *)
Definition stepTask (w : World) (s : stream) (st : State) : option State :=
  match task s st with
  | Some TCopy =>
      let r := copyErr w s in
      Some (set_task s (TCheck r) (emit (EvCopy s r) st))
  | Some (TCheck r) =>
      if copyFailed s r st
      then Some (set_task s TDefer (emit (EvLog (logFormat s) r) st))
      else Some (set_task s TDefer st)
  | Some TDefer =>
      match s with
      | Stdin => Some (set_task s TDone (emit (EvClose Stdin) st))
      | Stdout | Stderr =>
          Some (set_task s TDone (set_wg (wg st - 1) (emit (EvWgDone s) st)))
      end
  | Some TDone | None => None
  end.

Definition step (w : World) (t : tid) (st : State) : option State :=
  match t with
  | Main => stepMain w st
  | Task s => stepTask w s st
  end.

(** A schedule names the goroutine that runs next; naming one that
    cannot run leaves the state as it is. *)
Definition sched1 (w : World) (st : State) (t : tid) : State :=
  match step w t st with
  | Some st' => st'
  | None => st
  end.

Definition run (w : World) (sched : list tid) (st : State) : State :=
  fold_left (sched1 w) sched st.

(** The state at the call: lines 61-81 are done, nothing else. *)
Definition init (w : World) (ctx : Context) (svc : Service)
    (scmd : ServiceCommand) : State :=
  {| scmd := scmd; cmd := buildCmd (Environ w) ctx svc scmd; err := None;
     wg := 0; pc := MHook; tStdin := None; tStdout := None; tStderr := None;
     trace := [] |}.

Definition exec (w : World) (sched : list tid) (ctx : Context)
    (svc : Service) (scmd : ServiceCommand) : State :=
  run w sched (init w ctx svc scmd).

(** The value the main goroutine returned, if it has. *)
Definition returned (st : State) : option (option error) :=
  match pc st with
  | MReturned r => Some r
  | _ => None
  end.

(** What a call leaves behind: the returned error ([None] while the
    main goroutine has not returned under the schedule given) and the
    events. *)
Record Outcome : Type := mkOutcome {
  ret : option (option error);
  events : list event
}.

(** [type ServiceHandler func(ctx context.Context, cmd ServiceCommand) error]. *)
Definition ServiceHandler : Type :=
  World -> list tid -> Context -> ServiceCommand -> Outcome.

(** [func gitServiceHandler(ctx, svc, scmd) error]. *)
Definition gitServiceHandler (svc : Service) : ServiceHandler :=
  fun w sched ctx scmd =>
    let st := exec w sched ctx svc scmd in
    {| ret := returned st; events := trace st |}.

(** [UploadPack], [UploadArchive], [ReceivePack] (lines 189-202). *)
Definition UploadPack : ServiceHandler := gitServiceHandler UploadPackService.
Definition UploadArchive : ServiceHandler := gitServiceHandler UploadArchiveService.
Definition ReceivePack : ServiceHandler := gitServiceHandler ReceivePackService.

Section Dispatch.

(** [LFSTransfer] and [LFSAuthenticate] live in another file of the
    package; the dispatcher only calls them. *)
Variables LFSTransfer LFSAuthenticate : ServiceHandler.

(** [func (s Service) Handler(ctx, cmd) error]. *)
Definition Handler (s : Service) : ServiceHandler :=
  fun w sched ctx cmd =>
    if (String.eqb s UploadPackService
        || String.eqb s UploadArchiveService
        || String.eqb s ReceivePackService)%bool
    then gitServiceHandler s w sched ctx cmd
    else if String.eqb s LFSTransferService
    then LFSTransfer w sched ctx cmd
    else if String.eqb s LFSAuthenticateService
    then LFSAuthenticate w sched ctx cmd
    else {| ret := Some (Some (ErrorString ("unsupported service: " ++ s)%string));
            events := [] |}.

End Dispatch.

(* ------------------------------------------------------------------ *)
(** ** How the child reads its environment *)

(** An entry ["key=value"] split at its first [=]. *)
Fixpoint splitEntry (kv : string) : option (string * string) :=
  match kv with
  | EmptyString => None
  | String c rest =>
      if Ascii.eqb c "="%char then Some (EmptyString, rest)
      else
        match splitEntry rest with
        | Some (k, v) => Some (String c k, v)
        | None => None
        end
  end.

(** The value a process started with [cmd.Env = env] sees for [key]:
    [os/exec] keeps, of the entries with one key, the last. *)
Definition lookupEnv (key : string) (env : list string) : option string :=
  fold_left
    (fun acc kv =>
       match splitEntry kv with
       | Some (k, v) => if String.eqb k key then Some v else acc
       | None => acc
       end)
    env None.

(* ------------------------------------------------------------------ *)
(** ** The sequential reading of the main goroutine *)

(** One pipe block, read as a function: the error it returns with, or
    the command it leaves. *)
Definition pipeStage (w : World) (scmd : ServiceCommand) (s : stream)
    (c : Cmd) : error + Cmd :=
  if supplied scmd s then
    match pipeErr w s c with
    | Some e => inl e
    | None => inr (connect c s)
    end
  else inr c.

Definition built (w : World) (ctx : Context) (svc : Service)
    (scmd : ServiceCommand) : Cmd :=
  buildCmd (Environ w) ctx svc scmd.

Definition hooked (w : World) (ctx : Context) (svc : Service)
    (scmd : ServiceCommand) : Cmd :=
  applyHook scmd (built w ctx svc scmd).

(** Lines 61-113: the command [cmd.Start()] is called on, or the error
    of the first pipe that could not be created. *)
Definition startedCmd (w : World) (ctx : Context) (svc : Service)
    (scmd : ServiceCommand) : error + Cmd :=
  match pipeStage w scmd Stdin (hooked w ctx svc scmd) with
  | inl e => inl e
  | inr c =>
      match pipeStage w scmd Stdout c with
      | inl e => inl e
      | inr c => pipeStage w scmd Stderr c
      end
  end.

(** The value the call returns, read off the source top to bottom. *)
Definition result (w : World) (ctx : Context) (svc : Service)
    (scmd : ServiceCommand) : option error :=
  match startedCmd w ctx svc scmd with
  | inl e => Some e
  | inr c =>
      match startErr w c with
      | Some e => classifyStart e
      | None => classify (waitErr w c)
      end
  end.

(** A schedule that takes the step function to a returned state: the
    main goroutine up to [wg.Wait()], the two joined copy goroutines,
    the main goroutine to its end.  The stdin goroutine is not in it.
    It is the run of a program whose [io.Copy] calls on the child's
    outputs and whose [cmd.Wait()] have come back. *)
Definition completeSchedule : list tid :=
  repeat Main 10 ++ repeat (Task Stdout) 3 ++ repeat (Task Stderr) 3
    ++ repeat Main 3.

(** Position of a program point in the source. *)
Definition rank (p : mpc) : nat :=
  match p with
  | MHook => 0 | MStdinPipe => 1 | MStdoutPipe => 2 | MStderrPipe => 3
  | MStart => 4 | MGoStdin => 5 | MAddStdout => 6 | MGoStdout => 7
  | MAddStderr => 8 | MGoStderr => 9 | MWgWait => 10 | MCmdWait => 11
  | MClassify => 12 | MReturned _ => 13
  end.

(** A copy goroutine that was started and has not run its deferred call. *)
Definition active (p : option tpc) : bool :=
  match p with
  | Some TCopy | Some (TCheck _) | Some TDefer => true
  | Some TDone | None => false
  end.

(** The deferred call of the copy goroutine of [s], as an event. *)
Definition deferred (s : stream) : event :=
  match s with
  | Stdin => EvClose Stdin
  | Stdout | Stderr => EvWgDone s
  end.

Definition isCopy (s : stream) (e : event) : Prop := exists r, e = EvCopy s r.
Definition isWait (e : event) : Prop := exists r, e = EvWait r.

(** Every [Q]-event of a trace has a [P]-event strictly before it. *)
Definition before (P Q : event -> Prop) (tr : list event) : Prop :=
  forall l1 y l2, tr = l1 ++ y :: l2 -> Q y -> exists x, In x l1 /\ P x.

(* ------------------------------------------------------------------ *)
(** ** Invariants of one call, as predicates on its states *)

(** The main goroutine follows the sequential reading: where it stands
    fixes what [cmd] and [err] hold, and the parameter is the one it was
    called with. *)
Definition mainInv (w : World) (ctx : Context) (svc : Service)
    (scmd0 : ServiceCommand) (st : State) : Prop :=
  scmd st = scmd0 /\
  (rank (pc st) <= 11 -> err st = None) /\
  match pc st with
  | MHook => cmd st = built w ctx svc scmd0
  | MStdinPipe => cmd st = hooked w ctx svc scmd0
  | MStdoutPipe =>
      pipeStage w scmd0 Stdin (hooked w ctx svc scmd0) = inr (cmd st)
  | MStderrPipe =>
      exists c1,
        pipeStage w scmd0 Stdin (hooked w ctx svc scmd0) = inr c1 /\
        pipeStage w scmd0 Stdout c1 = inr (cmd st)
  | MStart => startedCmd w ctx svc scmd0 = inr (cmd st)
  | MClassify =>
      startedCmd w ctx svc scmd0 = inr (cmd st) /\
      startErr w (cmd st) = None /\
      err st = waitErr w (cmd st)
  | MReturned r => r = result w ctx svc scmd0
  | _ =>
      startedCmd w ctx svc scmd0 = inr (cmd st) /\
      startErr w (cmd st) = None
  end.

(** What the copy goroutine of [s] adds to the wait group counter: one
    from [wg.Add(1)] (the main goroutine then stands at [go]) until its
    deferred [wg.Done()]. *)
Definition cnt (go : mpc) (s : stream) (st : State) : nat :=
  if (Nat.eqb (rank (pc st)) (rank go) || active (task s st))%bool
  then 1 else 0.

(** The goroutines and the wait group agree with the program point of
    the main goroutine. *)
Definition concInv (scmd0 : ServiceCommand) (st : State) : Prop :=
  wg st = cnt MGoStdout Stdout st + cnt MGoStderr Stderr st /\
  (rank (pc st) <= 5 -> tStdin st = None) /\
  (rank (pc st) <= 7 -> tStdout st = None) /\
  (rank (pc st) <= 9 -> tStderr st = None) /\
  (8 <= rank (pc st) <= 12 -> supplied scmd0 Stdout = true ->
   tStdout st <> None) /\
  (10 <= rank (pc st) <= 12 -> supplied scmd0 Stderr = true ->
   tStderr st <> None) /\
  (11 <= rank (pc st) -> wg st = 0) /\
  (rank (pc st) = 7 -> supplied scmd0 Stdout = true) /\
  (rank (pc st) = 9 -> supplied scmd0 Stderr = true) /\
  (forall s, task s st <> None -> supplied scmd0 s = true).

Definition Inv (w : World) (ctx : Context) (svc : Service)
    (scmd0 : ServiceCommand) (st : State) : Prop :=
  mainInv w ctx svc scmd0 st /\ concInv scmd0 st.

(** What the trace of a call says about its main goroutine. *)
Record mainTrace (w : World) (ctx : Context) (svc : Service)
    (scmd0 : ServiceCommand) (st : State) : Prop := mkMainTrace {
  mt_hook : forall c, In (EvHook c) (trace st) -> c = built w ctx svc scmd0;
  mt_pipe_sup : forall s r,
    In (EvPipe s r) (trace st) -> supplied scmd0 s = true;
  mt_pipe_fail : forall s e,
    In (EvPipe s (Some e)) (trace st) -> pc st = MReturned (Some e);
  mt_pipe_in : 2 <= rank (pc st) <= 12 -> supplied scmd0 Stdin = true ->
    In (EvPipe Stdin None) (trace st);
  mt_pipe_out : 3 <= rank (pc st) <= 12 -> supplied scmd0 Stdout = true ->
    In (EvPipe Stdout None) (trace st);
  mt_pipe_err : 4 <= rank (pc st) <= 12 -> supplied scmd0 Stderr = true ->
    In (EvPipe Stderr None) (trace st);
  mt_nostart : rank (pc st) <= 4 ->
    forall c r, ~ In (EvStart c r) (trace st);
  mt_start : forall c r, In (EvStart c r) (trace st) ->
    startedCmd w ctx svc scmd0 = inr c /\ startErr w c = r /\
    forall s, supplied scmd0 s = true -> In (EvPipe s None) (trace st);
  mt_start_fail : forall c e,
    In (EvStart c (Some e)) (trace st) -> pc st = MReturned (classifyStart e);
  mt_pipe_start : forall s e c r,
    In (EvPipe s (Some e)) (trace st) -> ~ In (EvStart c r) (trace st);
  mt_nowait : rank (pc st) <= 11 -> forall r, ~ In (EvWait r) (trace st);
  mt_wait : forall r, In (EvWait r) (trace st) ->
    (pc st = MClassify /\ err st = r) \/ pc st = MReturned (classify r)
}.

(** What the trace of a call says about its copy goroutines. *)
Record taskTrace (w : World) (st : State) : Prop := mkTaskTrace {
  tt_go : forall s, task s st <> None -> In (EvGo s) (trace st);
  tt_spawned : forall s, In (EvGo s) (trace st) -> task s st <> None;
  tt_check : forall s r, task s st = Some (TCheck r) -> r = copyErr w s;
  tt_copy : forall s r, In (EvCopy s r) (trace st) ->
    r = copyErr w s /\ task s st <> None /\ task s st <> Some TCopy;
  tt_copied : forall s, task s st <> None -> task s st <> Some TCopy ->
    In (EvCopy s (copyErr w s)) (trace st);
  tt_done : forall s, task s st = Some TDone -> In (deferred s) (trace st)
}.

(** What reaches the log: the copy errors of the stdin and stdout
    goroutines, all of them, and nothing else. *)
Record logTrace (w : World) (st : State) : Prop := mkLogTrace {
  lt_logged : forall s e, s <> Stderr -> copyErr w s = Some e ->
    task s st = Some TDefer \/ task s st = Some TDone ->
    In (EvLog (logFormat s) (Some e)) (trace st);
  lt_log : forall f a, In (EvLog f a) (trace st) ->
    exists s e, s <> Stderr /\ f = logFormat s /\ a = Some e /\
                copyErr w s = Some e
}.

(** The order of the events of a call. *)
Record orderTrace (scmd0 : ServiceCommand) (st : State) : Prop :=
  mkOrderTrace {
  ot_go : forall s, before (eq (EvGo s)) (isCopy s) (trace st);
  ot_copy : forall s, before (isCopy s) (eq (deferred s)) (trace st);
  ot_wait : forall s, s <> Stdin -> supplied scmd0 s = true ->
    before (eq (EvWgDone s)) isWait (trace st)
}.

(** All of the above. *)
Definition Full (w : World) (ctx : Context) (svc : Service)
    (scmd0 : ServiceCommand) (st : State) : Prop :=
  Inv w ctx svc scmd0 st /\ mainTrace w ctx svc scmd0 st /\
  taskTrace w st /\ logTrace w st /\ orderTrace scmd0 st.

(** Every answer of [cmd.Wait()] in a trace is the answer of the world
    for the command that was started. *)
Definition waitOrigin (w : World) (ctx : Context) (svc : Service)
    (scmd0 : ServiceCommand) (st : State) : Prop :=
  forall r, In (EvWait r) (trace st) ->
    exists c, startedCmd w ctx svc scmd0 = inr c /\ r = waitErr w c.

(* ------------------------------------------------------------------ *)
(** ** Concrete calls *)

(** A request with all three streams, one extra argument, one extra
    environment entry and no hook. *)
Definition plainRequest : ServiceCommand :=
  {| scStdin := Some 0; scStdout := Some 1; scStderr := Some 2;
     scDir := "/srv/repos/demo.git";
     scEnv := ["GIT_PROTOCOL=version=2"];
     scArgs := ["--stateless-rpc"];
     scCmdFunc := None |}.

(** A world in which nothing goes wrong. *)
Definition calmWorld : World :=
  {| Environ := ["PATH=/usr/bin"; "GIT_PROTOCOL=version=1"];
     pipeErr := fun _ _ => None;
     startErr := fun _ => None;
     copyErr := fun _ => None;
     waitErr := fun _ => None |}.

(** The working directory is missing: [cmd.Start()] fails in [chdir]. *)
Definition missingDirWorld : World :=
  {| Environ := Environ calmWorld;
     pipeErr := fun _ _ => None;
     startErr := fun _ =>
       Some (PathError "chdir" "/srv/repos/demo.git" (Errno ENOENT));
     copyErr := fun _ => None;
     waitErr := fun _ => None |}.

(** How a started child ends: [chExit] is [None] when it exits with
    status zero and else what [ProcessState.String()] reads; [chStderr]
    is what it wrote to its standard error. *)
Record Child : Type := mkChild {
  chExit : option string;
  chStderr : list byte
}.

(** [os/exec], [Cmd.Wait]: [nil] for a child that exited with status
    zero, else [&ExitError{ProcessState: state}].  The [Stderr] field of
    that exit error stays empty: the library fills it in [Cmd.Output]
    alone, from a buffer it puts in [cmd.Stderr], and the handler calls
    [cmd.Start()] and [cmd.Wait()].  What the child wrote goes where its
    standard error is connected, the pipe of line 107 or nowhere. *)
Definition Cmd_Wait (ch : Child) : option error :=
  match chExit ch with
  | Some state => Some (ExitError state [])
  | None => None
  end.

(** The world of a call whose pipes, start and copies succeed and whose
    child ends as [ch]. *)
Definition childWorld (ch : Child) : World :=
  {| Environ := Environ calmWorld;
     pipeErr := fun _ _ => None;
     startErr := fun _ => None;
     copyErr := fun _ => None;
     waitErr := fun _ => Cmd_Wait ch |}.

(** The bytes of ["fatal"]. *)
Definition fatalBytes : list byte := [x66; x61; x74; x61; x6c].

(** The child writes ["fatal"] to its standard error and exits with
    status 128. *)
Definition exitWorld : World :=
  childWorld {| chExit := Some "exit status 128"; chStderr := fatalBytes |}.

(** A world answers [cmd.Wait()] as [os/exec] does when no exit error on
    the chain of an answer carries [Stderr] bytes. *)
Definition waitLikeExec (w : World) : Prop :=
  forall c e state stderr,
    waitErr w c = Some e -> errors_As_ExitError e = Some (state, stderr) ->
    stderr = [].

(** The copy of the child's stderr into the caller's sink fails. *)
Definition stderrFaultWorld : World :=
  {| Environ := Environ calmWorld;
     pipeErr := fun _ _ => None;
     startErr := fun _ => None;
     copyErr := fun s =>
       match s with
       | Stderr => Some (ErrorString "write: broken pipe")
       | Stdin | Stdout => None
       end;
     waitErr := fun _ => None |}.

(** The stdout pipe cannot be created. *)
Definition noPipeWorld : World :=
  {| Environ := Environ calmWorld;
     pipeErr := fun s _ =>
       match s with
       | Stdout => Some (ErrorString "pipe: too many open files")
       | Stdin | Stderr => None
       end;
     startErr := fun _ => None;
     copyErr := fun _ => None;
     waitErr := fun _ => None |}.

(* ------------------------------------------------------------------ *)
(** ** Further facts a trace records *)

Definition isHook (e : event) : Prop := exists c, e = EvHook c.
Definition isPipe (s : stream) (e : event) : Prop := exists r, e = EvPipe s r.
Definition isStart (e : event) : Prop := exists c r, e = EvStart c r.
Definition isStarted (e : event) : Prop := exists c, e = EvStart c None.
Definition isGo (e : event) : Prop := exists s, e = EvGo s.

(** No [P]-event of a trace has a [P]-event before it. *)
Definition once (P : event -> Prop) (tr : list event) : Prop :=
  forall l1 y l2, tr = l1 ++ y :: l2 -> P y -> forall x, In x l1 -> ~ P x.

(** The last program point of the main goroutine at which no pipe call
    for [s] has been made. *)
Definition pipeRank (s : stream) : nat :=
  match s with
  | Stdin => 1
  | Stdout => 2
  | Stderr => 3
  end.

(** Where a returned value comes from: a failed pipe call, a failed
    [cmd.Start()], or [cmd.Wait()] after a successful start. *)
Definition justified (tr : list event) (r : option error) : Prop :=
  (exists s e, In (EvPipe s (Some e)) tr /\ r = Some e) \/
  (exists c e, In (EvStart c (Some e)) tr /\ r = classifyStart e) \/
  (exists c r0, In (EvStart c None) tr /\ In (EvWait r0) tr /\
                r = classify r0).

(** What the trace of a call says about the hook, the start of the
    child and the returned value. *)
Record callTrace (w : World) (ctx : Context) (svc : Service)
    (scmd0 : ServiceCommand) (st : State) : Prop := mkCallTrace {
  ct_empty : rank (pc st) = 0 -> trace st = [];
  ct_hook_tail : forall c, ~ In (EvHook c) (tl (trace st));
  ct_hook_sup : forall c,
    In (EvHook c) (trace st) -> scCmdFunc scmd0 <> None;
  ct_hook_called : 1 <= rank (pc st) -> scCmdFunc scmd0 <> None ->
    In (EvHook (built w ctx svc scmd0)) (trace st);
  ct_nopipe : forall s r,
    rank (pc st) <= pipeRank s -> ~ In (EvPipe s r) (trace st);
  ct_started : 5 <= rank (pc st) <= 12 ->
    In (EvStart (cmd st) None) (trace st);
  ct_nowgwait : rank (pc st) <= 10 -> ~ In EvWgWait (trace st);
  ct_classify : pc st = MClassify -> In (EvWait (err st)) (trace st);
  ct_ret : forall r, pc st = MReturned r -> justified (trace st) r;
  ct_task : forall s,
    task s st <> None -> exists c, In (EvStart c None) (trace st);
  ct_wait : forall r,
    In (EvWait r) (trace st) -> exists c, In (EvStart c None) (trace st);
  ct_deferred : forall s,
    In (deferred s) (trace st) -> task s st = Some TDone;
  ct_logged : forall f a,
    In (EvLog f a) (trace st) -> exists s, In (EvCopy s a) (trace st)
}.

(** Each call the handler makes, it makes at most once. *)
Record onceTrace (st : State) : Prop := mkOnceTrace {
  on_hook : once isHook (trace st);
  on_pipe : forall s, once (isPipe s) (trace st);
  on_start : once isStart (trace st);
  on_go : forall s, once (eq (EvGo s)) (trace st);
  on_copy : forall s, once (isCopy s) (trace st);
  on_deferred : forall s, once (eq (deferred s)) (trace st);
  on_wgwait : once (eq EvWgWait) (trace st);
  on_wait : once isWait (trace st)
}.

(** The order of the calls of the main goroutine. *)
Record mainOrder (scmd0 : ServiceCommand) (st : State) : Prop :=
  mkMainOrder {
  mo_pipe_start : forall s, supplied scmd0 s = true ->
    before (eq (EvPipe s None)) isStart (trace st);
  mo_start_go : before isStarted isGo (trace st);
  mo_start_wait : before isStarted isWait (trace st)
}.

(** What the trace of a call says about its goroutines and the
    streams they serve. *)
Record goTrace (scmd0 : ServiceCommand) (st : State) : Prop := mkGoTrace {
  gt_wgwait : In EvWgWait (trace st) ->
    exists c, In (EvStart c None) (trace st);
  gt_close : forall s, In (EvClose s) (trace st) -> s = Stdin;
  gt_done : forall s, In (EvWgDone s) (trace st) -> s <> Stdin;
  gt_go_in : 6 <= rank (pc st) <= 12 -> supplied scmd0 Stdin = true ->
    tStdin st <> None;
  gt_wait_go : forall r s, In (EvWait r) (trace st) ->
    supplied scmd0 s = true -> In (EvGo s) (trace st)
}.

(** The events of lines 61-120: the hook, the pipes, the start. *)
Definition setupEvent (e : event) : Prop :=
  match e with
  | EvHook _ | EvPipe _ _ | EvStart _ _ => True
  | _ => False
  end.

(** All of the further facts. *)
Definition Further (w : World) (ctx : Context) (svc : Service)
    (scmd0 : ServiceCommand) (st : State) : Prop :=
  callTrace w ctx svc scmd0 st /\ onceTrace st /\ mainOrder scmd0 st /\
  goTrace scmd0 st.

(** A request with an output sink only, and no extras. *)
Definition outputOnlyRequest : ServiceCommand :=
  {| scStdin := None; scStdout := Some 1; scStderr := None;
     scDir := "/srv/repos/demo.git";
     scEnv := []; scArgs := []; scCmdFunc := None |}.

(** A request whose hook adds an entry to the environment of the
    command. *)
Definition hookRequest : ServiceCommand :=
  {| scStdin := None; scStdout := Some 1; scStderr := None;
     scDir := "/srv/repos/demo.git";
     scEnv := []; scArgs := [];
     scCmdFunc := Some (fun c => set_Env c (cEnv c ++ ["GIT_TRACE=1"])) |}.

(** [cmd.Start()] fails for a reason other than a missing file. *)
Definition deniedWorld : World :=
  {| Environ := Environ calmWorld;
     pipeErr := fun _ _ => None;
     startErr := fun _ => Some (PathError "fork/exec" "/usr/bin/git" (Errno 13));
     copyErr := fun _ => None;
     waitErr := fun _ => None |}.

(** [cmd.Wait()] fails with an error that is no exit error. *)
Definition interruptedWorld : World :=
  {| Environ := Environ calmWorld;
     pipeErr := fun _ _ => None;
     startErr := fun _ => None;
     copyErr := fun _ => None;
     waitErr := fun _ => Some (ErrorString "signal: killed") |}.

(** The copy of the caller's input into the child fails. *)
Definition stdinFaultWorld : World :=
  {| Environ := Environ calmWorld;
     pipeErr := fun _ _ => None;
     startErr := fun _ => None;
     copyErr := fun s =>
       match s with
       | Stdin => Some (ErrorString "read: connection reset")
       | Stdout | Stderr => None
       end;
     waitErr := fun _ => None |}.

(* ------------------------------------------------------------------ *)
(** ** Generic facts *)

Lemma run_app (w : World) (s1 s2 : list tid) (st : State) :
  run w (s1 ++ s2) st = run w s2 (run w s1 st).
Proof. unfold run. apply fold_left_app. Qed.

Lemma run_invariant (w : World) (P : State -> Prop) :
  (forall t st st', P st -> step w t st = Some st' -> P st') ->
  forall sched st, P st -> P (run w sched st).
Proof.
  intros Hstep sched. induction sched as [|t sched IH]; intros st Hst.
  - exact Hst.
  - simpl. apply IH. unfold sched1.
    destruct (step w t st) as [st'|] eqn:E.
    + eapply Hstep; eauto.
    + exact Hst.
Qed.

Lemma snoc_split {A : Type} (l : list A) (x : A) l1 y l2 :
  l ++ [x] = l1 ++ y :: l2 ->
  (l2 = [] /\ x = y /\ l = l1) \/
  (exists l2', l2 = l2' ++ [x] /\ l = l1 ++ y :: l2').
Proof.
  intros H. destruct (exists_last (l := y :: l2)) as [l2' [z Hz]].
  - discriminate.
  - rewrite Hz in H. rewrite app_assoc in H.
    apply app_inj_tail in H. destruct H as [Hl Hx]. subst z.
    destruct l2' as [|y' l2'].
    + simpl in Hz. injection Hz as Hy Hl2. left.
      destruct l2; [|destruct l2; discriminate].
      rewrite app_nil_r in Hl. auto.
    + right. simpl in Hz. injection Hz as Hy Hl2. subst y'.
      exists l2'. split; [assumption|]. exact Hl.
Qed.

Lemma before_nil (P Q : event -> Prop) : before P Q [].
Proof. intros l1 y l2 H. destruct l1; discriminate. Qed.

Lemma before_snoc (P Q : event -> Prop) tr e :
  before P Q tr ->
  (Q e -> exists x, In x tr /\ P x) ->
  before P Q (tr ++ [e]).
Proof.
  intros Hb He l1 y l2 Heq Hq.
  apply snoc_split in Heq. destruct Heq as [[_ [Hxy Hl]]|[l2' [_ Hl]]].
  - subst. apply He. exact Hq.
  - eapply Hb; eauto.
Qed.

Lemma in_snoc_l {A : Type} (x e : A) l : In x l -> In x (l ++ [e]).
Proof. intros H. apply in_or_app. left. exact H. Qed.

Lemma in_snoc_r {A : Type} (e : A) l : In e (l ++ [e]).
Proof. apply in_or_app. right. left. reflexivity. Qed.

(* ------------------------------------------------------------------ *)
(** ** Proof automation for the case analysis on one step *)

(** Side conditions that need no thought. *)
Ltac triv :=
  try assumption; try (intros; assumption); try reflexivity;
  try (intros; lia).

(** Discharge the arithmetic premises of the hypotheses. *)
Ltac spec_lia :=
  repeat match goal with
  | H : ?A -> _ |- _ =>
      match type of A with
      | Prop =>
          let HA := fresh in
          assert (HA : A) by (simpl; lia); specialize (H HA); clear HA
      end
  end.

(** The conjuncts of [concInv] after one step. *)
Ltac conc_finish Hsup :=
  repeat match goal with
    | H : Nat.eqb _ _ = true |- _ => apply Nat.eqb_eq in H
    end;
  repeat split; intros; try lia; try congruence; auto;
  try match goal with
    | s : stream |- supplied _ _ = true =>
        destruct s; simpl in *;
        first [ assumption | congruence
              | apply (Hsup Stdin); simpl; congruence
              | apply (Hsup Stdout); simpl; congruence
              | apply (Hsup Stderr); simpl; congruence ]
    end.

(** One case per statement that [Hstep] can have run. *)
Ltac step_cases Hstep Hsc :=
  match type of Hstep with
  | step _ ?t ?st = Some _ =>
      destruct t as [|s]; simpl in Hstep;
      [ unfold stepMain, pipeStep in Hstep; try rewrite Hsc in Hstep;
        destruct (pc st) eqn:Epc;
        repeat match type of Hstep with
          | context [match ?x with _ => _ end] => destruct x eqn:?
          end;
        try discriminate; injection Hstep as <-
      | unfold stepTask in Hstep; destruct s; simpl in Hstep;
        match type of Hstep with
        | context [match ?x with _ => _ end] =>
            destruct x as [[| r | |]|] eqn:Et
        end;
        try discriminate;
        try match type of Hstep with
          | context [if ?x then _ else _] => destruct x eqn:Ecf
          end;
        injection Hstep as <- ]
  end.

(** An event of the new trace is an old one or the one just added. *)
Ltac in_hyps :=
  repeat match goal with
  | H : In _ (_ ++ [_]) |- _ =>
      apply in_app_or in H; destruct H as [H | [H | []]];
      [ | first [ discriminate H | injection H as ?; subst | idtac ] ]
  end.

(** A fact about every stream, stated for each of the three. *)
Ltac inst3 H :=
  pose proof (H Stdin); pose proof (H Stdout); pose proof (H Stderr);
  clear H.

Ltac task_cases Hstep Hsc :=
  step_cases Hstep Hsc; clear Hsc; simpl in *.

(** Close a goal from the hypotheses, through the trace if need be. *)
Ltac fin_prem := first [ assumption | congruence | lia ].

Ltac fin :=
  first [ assumption | reflexivity | congruence | lia
        | apply in_snoc_r
        | apply in_snoc_l; fin
        | match goal with
          | H : _ |- _ => apply H; solve [fin_prem]
          end ].

(** Case analysis on the innermost scrutinee of the goal. *)
Ltac break_match :=
  match goal with
  | |- context [match ?x with _ => _ end] =>
      lazymatch x with
      | context [match _ with _ => _ end] => fail
      | _ => destruct x eqn:?
      end
  end.

(** Membership of a concrete event in a concrete trace. *)

Ltac find_event := repeat (first [ left; reflexivity | right ]).

(* ------------------------------------------------------------------ *)
(** ** The invariants hold along every schedule *)

Section Invariants.

Variable w : World.
Variable ctx : Context.
Variable svc : Service.
Variable scmd0 : ServiceCommand.

Local Arguments supplied : simpl never.

Lemma Inv_init : Inv w ctx svc scmd0 (init w ctx svc scmd0).
Proof.
  unfold Inv, mainInv, concInv, cnt, init, built; simpl.
  repeat split; try reflexivity; try lia; try congruence.
  intros s; destruct s; simpl; congruence.
Qed.

Lemma mainInv_step t st st' :
  mainInv w ctx svc scmd0 st -> step w t st = Some st' ->
  mainInv w ctx svc scmd0 st'.
Proof.
  intros [Hsc [Herr Hpc]] Hstep.
  destruct t as [|s]; simpl in Hstep.
  - unfold stepMain in Hstep.
    destruct (pc st) eqn:Epc; simpl in Herr;
      try specialize (Herr ltac:(lia)).
    + (* MHook *)
      unfold mainInv. rewrite Hsc in Hstep.
      destruct (scCmdFunc scmd0) eqn:Ef; injection Hstep as <-; simpl;
        (split; [assumption|]); (split; [intros _; assumption|]);
        unfold hooked, applyHook; rewrite Ef, Hpc; reflexivity.
    + (* MStdinPipe *)
      injection Hstep as <-. unfold pipeStep, mainInv.
      rewrite Hsc.
      destruct (supplied scmd0 Stdin) eqn:Es; simpl.
      * rewrite Hpc. destruct (pipeErr w Stdin (hooked w ctx svc scmd0)) eqn:Ep; simpl.
        -- repeat split; triv.
           unfold result, startedCmd.
           unfold pipeStage. rewrite Es, Ep. reflexivity.
        -- repeat split; triv.
           unfold pipeStage. rewrite Es, Ep. reflexivity.
      * repeat split; triv.
        unfold pipeStage. rewrite Es, Hpc. reflexivity.
    + (* MStdoutPipe *)
      injection Hstep as <-. unfold pipeStep, mainInv.
      rewrite Hsc.
      destruct (supplied scmd0 Stdout) eqn:Es; simpl.
      * destruct (pipeErr w Stdout (cmd st)) eqn:Ep; simpl.
        -- repeat split; triv.
           unfold result, startedCmd.
           rewrite Hpc. unfold pipeStage at 1. rewrite Es, Ep. reflexivity.
        -- repeat split; triv.
           exists (cmd st). split; [assumption|].
           unfold pipeStage. rewrite Es, Ep. reflexivity.
      * repeat split; triv.
        exists (cmd st). split; [assumption|].
        unfold pipeStage. rewrite Es. reflexivity.
    + (* MStderrPipe *)
      injection Hstep as <-. unfold pipeStep, mainInv.
      rewrite Hsc. destruct Hpc as [c1 [H1 H2]].
      destruct (supplied scmd0 Stderr) eqn:Es; simpl.
      * destruct (pipeErr w Stderr (cmd st)) eqn:Ep; simpl.
        -- repeat split; triv.
           unfold result, startedCmd.
           rewrite H1, H2. unfold pipeStage. rewrite Es, Ep. reflexivity.
        -- repeat split; triv.
           unfold startedCmd.
           rewrite H1, H2. unfold pipeStage. rewrite Es, Ep. reflexivity.
      * repeat split; triv.
        unfold startedCmd.
        rewrite H1, H2. unfold pipeStage. rewrite Es. reflexivity.
    + (* MStart *)
      unfold mainInv.
      destruct (startErr w (cmd st)) eqn:Es; injection Hstep as <-; simpl.
      * repeat split; triv.
        unfold result. rewrite Hpc, Es. reflexivity.
      * repeat split; triv.
    + (* MGoStdin *)
      unfold mainInv.
      destruct (supplied (scmd st) Stdin); injection Hstep as <-; simpl;
        repeat split; triv; apply Hpc.
    + unfold mainInv.
      destruct (supplied (scmd st) Stdout); injection Hstep as <-; simpl;
        repeat split; triv; apply Hpc.
    + unfold mainInv. injection Hstep as <-; simpl.
      repeat split; triv; apply Hpc.
    + unfold mainInv.
      destruct (supplied (scmd st) Stderr); injection Hstep as <-; simpl;
        repeat split; triv; apply Hpc.
    + unfold mainInv. injection Hstep as <-; simpl.
      repeat split; triv; apply Hpc.
    + unfold mainInv.
      destruct (Nat.eqb (wg st) 0); [|discriminate]. injection Hstep as <-; simpl.
      repeat split; triv; apply Hpc.
    + unfold mainInv. injection Hstep as <-; simpl.
      repeat split; triv; apply Hpc.
    + unfold mainInv. injection Hstep as <-; simpl.
      repeat split; triv.
      destruct Hpc as [H1 [H2 H3]].
      unfold result. rewrite H1, H2, H3. reflexivity.
    + discriminate.
  - unfold stepTask in Hstep. unfold mainInv.
    destruct (task s st) as [[| r | |]|]; try discriminate.
    + injection Hstep as <-; simpl. repeat split; triv.
    + destruct (copyFailed s r st); injection Hstep as <-; simpl;
        repeat split; triv.
    + destruct s; injection Hstep as <-; simpl; repeat split; triv.
Qed.

Lemma concInv_step t st st' :
  scmd st = scmd0 -> concInv scmd0 st -> step w t st = Some st' ->
  concInv scmd0 st'.
Proof.
  intros Hsc (Hwg & Hin & Hout & Herr & Hso & Hse & Hz & Hgo & Hge & Hsup)
    Hstep.
  unfold concInv, cnt in *.
  destruct t as [|s]; simpl in Hstep.
  - unfold stepMain, pipeStep in Hstep. rewrite Hsc in Hstep.
    destruct (pc st) eqn:Epc; simpl in *; spec_lia;
      repeat match type of Hstep with
        | context [match ?x with _ => _ end] => destruct x eqn:?
        end;
      try discriminate; injection Hstep as <-; simpl;
      rewrite ?Epc; simpl;
      repeat match goal with
        | H : _ = None |- _ => rewrite H in *
        end; simpl in *.
    all: conc_finish Hsup.
  - unfold stepTask in Hstep.
    destruct s; simpl in Hstep;
      match type of Hstep with
      | context [match ?x with _ => _ end] =>
          destruct x as [[| r | |]|] eqn:Et
      end;
      try discriminate;
      try match type of Hstep with
        | context [if ?x then _ else _] => destruct x
        end;
      injection Hstep as <-; simpl;
      destruct (pc st) eqn:Epc; simpl in *; spec_lia;
      rewrite ?Et in *; simpl in *; try congruence.
    all: conc_finish Hsup.
Qed.

Lemma Inv_step t st st' :
  Inv w ctx svc scmd0 st -> step w t st = Some st' -> Inv w ctx svc scmd0 st'.
Proof.
  intros [Hm Hc] Hstep. split.
  - eapply mainInv_step; eauto.
  - eapply concInv_step; eauto. apply Hm.
Qed.

Lemma Inv_exec sched : Inv w ctx svc scmd0 (exec w sched ctx svc scmd0).
Proof.
  unfold exec. apply run_invariant.
  - intros t st st'. apply Inv_step.
  - apply Inv_init.
Qed.

Lemma mainTrace_init : mainTrace w ctx svc scmd0 (init w ctx svc scmd0).
Proof.
  constructor; simpl; intros; try contradiction; try lia; auto.
Qed.

Lemma mainTrace_step t st st' :
  mainInv w ctx svc scmd0 st -> mainTrace w ctx svc scmd0 st ->
  step w t st = Some st' -> mainTrace w ctx svc scmd0 st'.
Proof.
  intros [Hsc [Herr Hpc]] [Hhook Hsup Hfail Hpin Hpout Hperr Hns Hst Hsf Hps Hnw Hwt]
    Hstep.
  step_cases Hstep Hsc; clear Hsc; simpl in *; rewrite ?Epc in *;
    simpl in *; constructor; simpl; unfold not; intros; in_hyps.
  all: try (solve [eauto using in_snoc_l, in_snoc_r]).
  all: try lia.
  all: try congruence.
  all: try (solve [ try apply in_snoc_l;
                    first [apply Hpin | apply Hpout | apply Hperr];
                    (lia || assumption) ]).
  all: try (exfalso;
            match goal with
            | H : In (EvPipe _ (Some _)) (trace _),
              H' : In (EvStart _ _) (trace _) |- _ =>
                exact (Hps _ _ _ _ H H')
            | H : In (EvPipe _ (Some _)) (trace _) |- _ =>
                apply Hfail in H; discriminate H
            | H : In (EvStart _ (Some _)) (trace _) |- _ =>
                apply Hsf in H; discriminate H
            | H : In (EvStart _ _) (trace _) |- _ =>
                eapply Hns; [lia | exact H]
            | H : In (EvWait _) (trace _) |- _ =>
                eapply Hnw; [lia | exact H]
            | H : In (EvWait _) (trace _) |- _ =>
                apply Hwt in H; destruct H as [[? ?]|?]; discriminate
            end; fail).
  all: try match goal with
    | H : In (EvStart _ _) (trace _) |- _ /\ _ =>
        destruct (Hst _ _ H) as (? & ? & ?);
        repeat split; eauto using in_snoc_l
    | |- _ /\ _ /\ (forall s : stream, _) =>
        repeat split; try assumption;
        let s' := fresh "s" in
        intros s' ?; destruct s'; apply in_snoc_l;
        first [apply Hpin | apply Hpout | apply Hperr];
        (lia || assumption)
    | H : In (EvWait _) (trace _) |- _ \/ _ =>
        destruct (Hwt _ H) as [[_ <-]|?];
        [right; reflexivity | discriminate]
    end.
Qed.

End Invariants.

(* ------------------------------------------------------------------ *)
(** ** What the trace says about the copy goroutines *)

Section Tasks.
Variable w : World.
Variable ctx : Context.
Variable svc : Service.
Variable scmd0 : ServiceCommand.
Local Arguments supplied : simpl never.

(** While the stderr goroutine runs, the variable [err] it tests is
    still [nil]: the main goroutine assigns it after [wg.Wait()]. *)
Lemma stderr_task_sees_nil st :
  Inv w ctx svc scmd0 st -> active (tStderr st) = true -> err st = None.
Proof.
  intros [[_ [Herr _]] (Hwg & _ & _ & _ & _ & _ & Hz & _)] Hact.
  apply Herr. unfold cnt in Hwg. simpl in Hwg. rewrite Hact in Hwg.
  rewrite orb_true_r in Hwg.
  destruct (le_gt_dec (rank (pc st)) 11) as [Hle|Hgt]; [exact Hle|].
  specialize (Hz ltac:(lia)). lia.
Qed.

(** Past [wg.Wait()], a supplied sink's goroutine has ended. *)
Lemma joined st s :
  Inv w ctx svc scmd0 st -> 11 <= rank (pc st) <= 12 ->
  s <> Stdin -> supplied scmd0 s = true -> task s st = Some TDone.
Proof.
  intros [_ (Hwg & _ & _ & _ & Hso & Hse & Hz & _)] Hr Hs Hsup.
  specialize (Hz ltac:(lia)). unfold cnt in Hwg. rewrite Hz in Hwg.
  destruct s; [congruence| |]; simpl in *.
  - specialize (Hso ltac:(lia) Hsup).
    destruct (tStdout st) as [[| | |]|]; simpl in Hwg;
      rewrite ?orb_true_r in Hwg; try discriminate; try lia; congruence.
  - specialize (Hse ltac:(lia) Hsup).
    destruct (tStderr st) as [[| | |]|]; simpl in Hwg;
      rewrite ?orb_true_r in Hwg; try discriminate; try lia; try congruence.
    all: destruct ((rank (pc st) =? 7)%nat || active (tStdout st))%bool; lia.
Qed.

Lemma taskTrace_init : taskTrace w (init w ctx svc scmd0).
Proof.
  constructor; simpl; intros; try contradiction.
  all: destruct s; simpl in *; intuition congruence.
Qed.

Lemma taskTrace_step t st st' :
  Inv w ctx svc scmd0 st -> taskTrace w st ->
  step w t st = Some st' -> taskTrace w st'.
Proof.
  intros [[Hsc _] [_ (Hin & Hout & Herr & _)]] [Hgo Hsp Hck Hcp Hcd Hdn] Hstep.
  constructor.
  - clear Hsp Hck Hcp Hcd Hdn. inst3 Hgo.
    task_cases Hstep Hsc; rewrite ?Et in *; simpl in *;
      intros s0 Hs0; destruct s0; simpl in *; fin.
  - clear Hgo Hck Hcp Hcd Hdn. inst3 Hsp.
    task_cases Hstep Hsc; rewrite ?Et in *; rewrite ?Epc in *;
      simpl in *; spec_lia;
      intros s0 Hs0; destruct s0; in_hyps; simpl in *;
      try congruence; fin.
  - clear Hgo Hsp Hcp Hcd Hdn. inst3 Hck.
    task_cases Hstep Hsc; rewrite ?Et in *; simpl in *;
      intros s0 r0 Hs0; destruct s0; simpl in *; fin.
  - clear Hgo Hsp Hck Hcd Hdn. inst3 Hcp.
    task_cases Hstep Hsc; rewrite ?Et in *; rewrite ?Epc in *;
      simpl in *; spec_lia;
      intros s0 r0 Hs0; in_hyps;
      try (destruct s0; simpl in *;
           match goal with
           | H : forall r, In (EvCopy ?s r) _ -> _,
             H' : In (EvCopy ?s _) _ |- _ =>
               destruct (H _ H') as (? & ? & ?)
           end);
      repeat split; simpl; fin.
  - clear Hgo Hsp Hck Hcp Hdn. inst3 Hcd.
    task_cases Hstep Hsc; rewrite ?Et in *; simpl in *;
      intros s0 Hs0 Hs1; destruct s0; simpl in *; fin.
  - clear Hgo Hsp Hck Hcp Hcd. inst3 Hdn.
    task_cases Hstep Hsc; rewrite ?Et in *; simpl in *;
      intros s0 Hs0; destruct s0; simpl in *; fin.
Qed.

Lemma logTrace_init : logTrace w (init w ctx svc scmd0).
Proof.
  constructor; simpl; intros; try contradiction.
  destruct s; simpl in *; intuition congruence.
Qed.

Lemma logTrace_step t st st' :
  Inv w ctx svc scmd0 st -> taskTrace w st -> logTrace w st ->
  step w t st = Some st' -> logTrace w st'.
Proof.
  intros HInv [_ _ Hck _ _ _] [Hlg Hlog] Hstep.
  pose proof (stderr_task_sees_nil st HInv) as Hnil.
  destruct HInv as [[Hsc _] _].
  constructor.
  - clear Hlog Hnil. inst3 Hlg. inst3 Hck.
    task_cases Hstep Hsc; rewrite ?Et in *; simpl in *;
      intros s0 e0 Hs0 He0 Ht0; destruct s0; simpl in *;
      try congruence;
      destruct Ht0 as [Ht0|Ht0]; try discriminate Ht0;
      repeat match goal with
        | H : forall r, Some (TCheck _) = Some (TCheck r) -> _ |- _ =>
            specialize (H _ eq_refl)
        end;
      subst; try rewrite He0 in *; simpl in *; try discriminate;
      first [ apply in_snoc_r
            | try apply in_snoc_l;
              match goal with
              | H : _ |- _ => apply H; solve [ auto | congruence ]
              end ].
  - clear Hlg. inst3 Hck.
    task_cases Hstep Hsc; rewrite ?Et in *; simpl in *;
      try (specialize (Hnil eq_refl); rewrite Hnil in Ecf; discriminate);
      intros f0 a0 Hf0; in_hyps; try (apply Hlog; assumption);
      repeat match goal with
        | H : forall r, Some (TCheck _) = Some (TCheck r) -> _ |- _ =>
            specialize (H _ eq_refl)
        end;
      subst;
      match goal with
      | E : match copyErr w ?s with _ => _ end = true |- _ =>
          destruct (copyErr w s) as [e1|] eqn:Ec; [|discriminate];
          exists s, e1; repeat split; congruence
      end.
Qed.

Lemma orderTrace_init : orderTrace scmd0 (init w ctx svc scmd0).
Proof. constructor; simpl; intros; apply before_nil. Qed.

Lemma orderTrace_step t st st' :
  Inv w ctx svc scmd0 st -> taskTrace w st -> orderTrace scmd0 st ->
  step w t st = Some st' -> orderTrace scmd0 st'.
Proof.
  intros HInv [Hgo _ _ _ Hcd Hdn] [Hbg Hbc Hbw] Hstep.
  pose proof (joined st) as Hj. specialize (fun s => Hj s HInv).
  destruct HInv as [[Hsc _] _].
  constructor.
  - clear Hbc Hbw Hcd Hdn Hj. inst3 Hgo.
    task_cases Hstep Hsc; rewrite ?Et in *; simpl in *; intros s0;
      try apply Hbg;
      (apply before_snoc; [apply Hbg|]); intros [r0 Hr0];
      try discriminate Hr0; injection Hr0 as <- <-;
      eexists; (split; [|reflexivity]); simpl; fin.
  - clear Hbg Hbw Hgo Hdn Hj. inst3 Hcd.
    task_cases Hstep Hsc; rewrite ?Et in *; simpl in *; intros s0;
      try apply Hbc;
      (apply before_snoc; [apply Hbc|]); intros Hr0;
      destruct s0; try discriminate Hr0;
      eexists; (split; [|eexists; reflexivity]);
      match goal with
      | H : _ |- _ => apply H; congruence
      end.
  - clear Hbg Hbc Hgo Hcd.
    task_cases Hstep Hsc; rewrite ?Et in *; rewrite ?Epc in *;
      simpl in *; intros s0 Hs0 Hs1;
      try (apply Hbw; assumption);
      (apply before_snoc; [apply Hbw; assumption|]); intros [r0 Hr0];
      try discriminate Hr0.
    exists (EvWgDone s0). split; [|reflexivity].
    specialize (Hj s0 ltac:(lia) Hs0 Hs1).
    apply Hdn in Hj. destruct s0; [congruence| |]; exact Hj.
Qed.
End Tasks.

(* ------------------------------------------------------------------ *)
(** ** The end of a run under [completeSchedule] *)

Section Complete.
Variable w : World.
Variable ctx : Context.
Variable svc : Service.
Variable scmd0 : ServiceCommand.

Lemma main_progress st :
  rank (pc st) < 13 -> (rank (pc st) = 10 -> wg st = 0) ->
  rank (pc st) < rank (pc (sched1 w st Main)).
Proof.
  unfold sched1, step, stepMain, pipeStep.
  destruct (pc st) eqn:Epc; simpl; intros Hr Hwg; try lia;
    try rewrite (Hwg eq_refl); simpl;
    repeat break_match; simpl; lia.
Qed.

Lemma task_step_frame s t st :
  pc (sched1 w st (Task s)) = pc st /\
  (Task t <> Task s -> task t (sched1 w st (Task s)) = task t st).
Proof.
  unfold sched1, step, stepTask.
  destruct s, t; simpl;
    repeat (break_match; simpl); split; try reflexivity; congruence.
Qed.
Lemma rank_mono t st : rank (pc st) <= rank (pc (sched1 w st t)).
Proof.
  destruct t as [|s].
  - unfold sched1, step, stepMain, pipeStep.
    destruct (pc st) eqn:Epc; simpl;
      repeat break_match; simpl; rewrite ?Epc; simpl; lia.
  - destruct (task_step_frame s s st) as [-> _]. lia.
Qed.

Lemma main_reaches_wait n st :
  Nat.min 10 (rank (pc st) + n) <= rank (pc (run w (repeat Main n) st)).
Proof.
  revert st. induction n as [|n IH]; intros st.
  - change (run w (repeat Main 0) st) with st. lia.
  - change (run w (repeat Main (S n)) st)
      with (run w (repeat Main n) (sched1 w st Main)).
    specialize (IH (sched1 w st Main)).
    destruct (le_gt_dec 10 (rank (pc st))) as [Hge|Hlt].
    + pose proof (rank_mono Main st). lia.
    + pose proof (main_progress st ltac:(lia) ltac:(lia)). lia.
Qed.

Lemma task_turn s st :
  task s (sched1 w st (Task s)) =
  match task s st with
  | Some TCopy => Some (TCheck (copyErr w s))
  | Some (TCheck _) => Some TDefer
  | Some TDefer | Some TDone => Some TDone
  | None => None
  end.
Proof.
  unfold sched1, step, stepTask.
  destruct (task s st) as [[|r| |]|] eqn:Et;
    try exact Et; try (destruct s; reflexivity).
  destruct (copyFailed s r st); destruct s; reflexivity.
Qed.

(** Three turns end a copy goroutine, whatever it was doing. *)
Lemma task_finishes s st :
  active (task s (run w (repeat (Task s) 3) st)) = false.
Proof.
  change (run w (repeat (Task s) 3) st)
    with (sched1 w (sched1 w (sched1 w st (Task s)) (Task s)) (Task s)).
  rewrite !task_turn.
  destruct (task s st) as [[|r| |]|]; reflexivity.
Qed.

Lemma tasks_frame n s t st :
  pc (run w (repeat (Task s) n) st) = pc st /\
  (t <> s -> task t (run w (repeat (Task s) n) st) = task t st).
Proof.
  revert st. induction n as [|n IH]; intros st.
  - split; reflexivity.
  - change (run w (repeat (Task s) (S n)) st)
      with (run w (repeat (Task s) n) (sched1 w st (Task s))).
    destruct (IH (sched1 w st (Task s))) as [-> IH2].
    destruct (task_step_frame s t st) as [-> Hf].
    split; [reflexivity|]. intros Hne. rewrite IH2 by exact Hne.
    apply Hf. congruence.
Qed.

Lemma main_frame st :
  11 <= rank (pc st) -> wg (sched1 w st Main) = wg st.
Proof.
  unfold sched1, step, stepMain.
  destruct (pc st); simpl; intros Hr; try lia; reflexivity.
Qed.

Lemma last_turns st :
  Inv w ctx svc scmd0 st ->
  Inv w ctx svc scmd0 (run w (repeat Main 3) st) ->
  10 <= rank (pc st) ->
  active (tStdout st) = false -> active (tStderr st) = false ->
  returned (run w (repeat Main 3) st) = Some (result w ctx svc scmd0).
Proof.
  intros [_ (Hwg & _)] [(_ & _ & Hres) _] Hr Ho He.
  unfold cnt in Hwg. simpl in Hwg. rewrite Ho, He in Hwg.
  rewrite !orb_false_r in Hwg.
  assert (H13 : 13 <= rank (pc (run w (repeat Main 3) st))).
  { change (run w (repeat Main 3) st)
      with (sched1 w (sched1 w (sched1 w st Main) Main) Main).
    set (a := sched1 w st Main). set (b := sched1 w a Main).
    pose proof (rank_mono Main st) as M1. fold a in M1.
    pose proof (rank_mono Main a) as M2. fold b in M2.
    pose proof (rank_mono Main b) as M3.
    destruct (le_gt_dec 13 (rank (pc st))) as [|L1]; [lia|].
    assert (P1 : rank (pc st) < rank (pc a)).
    { apply main_progress; [lia|]. intros E. rewrite E in Hwg.
      simpl in Hwg. exact Hwg. }
    destruct (le_gt_dec 13 (rank (pc a))) as [|L2]; [lia|].
    assert (P2 : rank (pc a) < rank (pc b)).
    { apply main_progress; lia. }
    destruct (le_gt_dec 13 (rank (pc b))) as [|L3]; [lia|].
    assert (P3 : rank (pc b) < rank (pc (sched1 w b Main))).
    { apply main_progress; lia. }
    lia. }
  unfold returned.
  destruct (pc (run w (repeat Main 3) st)); simpl in H13; try lia.
  rewrite Hres. reflexivity.
Qed.

Lemma exec_eq sched :
  exec w sched ctx svc scmd0 = run w sched (init w ctx svc scmd0).
Proof. reflexivity. Qed.

Lemma completeSchedule_eq :
  completeSchedule =
  repeat Main 10 ++ repeat (Task Stdout) 3 ++ repeat (Task Stderr) 3
    ++ repeat Main 3.
Proof. reflexivity. Qed.

Lemma Inv_run sched st :
  Inv w ctx svc scmd0 st -> Inv w ctx svc scmd0 (run w sched st).
Proof.
  apply (run_invariant w (Inv w ctx svc scmd0)).
  intros t s s'. apply Inv_step.
Qed.

Lemma main_at_wait :
  10 <= rank (pc (run w (repeat Main 10) (init w ctx svc scmd0))).
Proof.
  apply (Nat.le_trans _ _ _ (Nat.le_refl 10)
           (main_reaches_wait 10 (init w ctx svc scmd0))).
Qed.

Lemma complete_from s1 :
  Inv w ctx svc scmd0 s1 -> 10 <= rank (pc s1) ->
  returned
    (run w (repeat Main 3)
       (run w (repeat (Task Stderr) 3)
          (run w (repeat (Task Stdout) 3) s1)))
  = Some (result w ctx svc scmd0).
Proof.
  intros I1 H1.
  pose proof (task_finishes Stdout s1) as Ho.
  destruct (tasks_frame 3 Stdout Stdin s1) as [P2 _].
  pose proof (Inv_run (repeat (Task Stdout) 3) _ I1) as I2.
  remember (run w (repeat (Task Stdout) 3) s1) as s2 eqn:E2. clear E2.
  pose proof (task_finishes Stderr s2) as He.
  destruct (tasks_frame 3 Stderr Stdin s2) as [P3 _].
  destruct (tasks_frame 3 Stderr Stdout s2) as [_ F3].
  pose proof (Inv_run (repeat (Task Stderr) 3) _ I2) as I3.
  remember (run w (repeat (Task Stderr) 3) s2) as s3 eqn:E3. clear E3.
  apply last_turns.
  - exact I3.
  - apply Inv_run. exact I3.
  - rewrite P3, P2. exact H1.
  - change (tStdout s3) with (task Stdout s3).
    rewrite F3 by congruence. exact Ho.
  - exact He.
Qed.

Lemma exec_complete :
  returned (exec w completeSchedule ctx svc scmd0)
  = Some (result w ctx svc scmd0).
Proof.
  rewrite exec_eq, completeSchedule_eq, !run_app.
  apply complete_from.
  - apply Inv_run. apply Inv_init.
  - apply main_at_wait.
Qed.
End Complete.

(* ------------------------------------------------------------------ *)
(** ** Facts about whole calls *)

Section Calls.
Variable w : World.
Variable ctx : Context.
Variable svc : Service.
Variable scmd0 : ServiceCommand.

Lemma Full_init : Full w ctx svc scmd0 (init w ctx svc scmd0).
Proof.
  split; [apply Inv_init|].
  split; [apply mainTrace_init|].
  split; [apply taskTrace_init|].
  split; [apply logTrace_init|apply orderTrace_init].
Qed.

Lemma Full_step t st st' :
  Full w ctx svc scmd0 st -> step w t st = Some st' ->
  Full w ctx svc scmd0 st'.
Proof.
  intros (HI & HM & HT & HL & HO) Hstep.
  split; [eapply Inv_step; eauto|].
  split; [eapply mainTrace_step; eauto; apply HI|].
  split; [eapply taskTrace_step; eauto|].
  split; [eapply logTrace_step; eauto|eapply orderTrace_step; eauto].
Qed.

Lemma Full_run sched st :
  Full w ctx svc scmd0 st -> Full w ctx svc scmd0 (run w sched st).
Proof.
  apply (run_invariant w (Full w ctx svc scmd0)).
  intros t s s'. apply Full_step.
Qed.

Lemma Full_exec sched : Full w ctx svc scmd0 (exec w sched ctx svc scmd0).
Proof. rewrite exec_eq. apply Full_run. apply Full_init. Qed.

(** Whatever the schedule, a call that returns returns [result]. *)
Lemma returned_result sched r :
  returned (exec w sched ctx svc scmd0) = Some r ->
  r = result w ctx svc scmd0.
Proof.
  destruct (Full_exec sched) as [[(_ & _ & Hpc) _] _].
  unfold returned. destruct (pc (exec w sched ctx svc scmd0)); try discriminate.
  intros H. injection H as <-. exact Hpc.
Qed.

(** One more turn of the main goroutine. *)
Lemma exec_snoc sched t :
  exec w (sched ++ [t]) ctx svc scmd0
  = sched1 w (exec w sched ctx svc scmd0) t.
Proof. rewrite !exec_eq, run_app. reflexivity. Qed.

Lemma returned_stays st t r :
  returned st = Some r -> returned (sched1 w st t) = Some r.
Proof.
  unfold returned, sched1. destruct (pc st) eqn:Epc; try discriminate.
  intros H. destruct t as [|s]; simpl.
  - unfold stepMain. rewrite Epc. simpl. rewrite Epc. exact H.
  - destruct (task_step_frame w s s st) as [Hp _].
    unfold sched1 in Hp. simpl in Hp. rewrite Hp, Epc. exact H.
Qed.

(** The pipe blocks leave the arguments, the environment and the
    directory of the command alone. *)
Lemma pipeStage_frame s c c' :
  pipeStage w scmd0 s c = inr c' ->
  cArgs c' = cArgs c /\ cEnv c' = cEnv c /\ cDir c' = cDir c.
Proof.
  unfold pipeStage.
  destruct (supplied scmd0 s); [destruct (pipeErr w s c)|];
    intros H; try discriminate; injection H as <-; auto.
Qed.

Lemma startedCmd_frame c :
  startedCmd w ctx svc scmd0 = inr c ->
  cArgs c = cArgs (hooked w ctx svc scmd0) /\
  cEnv c = cEnv (hooked w ctx svc scmd0) /\
  cDir c = cDir (hooked w ctx svc scmd0).
Proof.
  unfold startedCmd.
  destruct (pipeStage w scmd0 Stdin _) as [|c1] eqn:E1; try discriminate.
  destruct (pipeStage w scmd0 Stdout c1) as [|c2] eqn:E2; try discriminate.
  intros E3.
  apply pipeStage_frame in E1, E2, E3.
  destruct E1 as (A1 & B1 & C1), E2 as (A2 & B2 & C2),
    E3 as (A3 & B3 & C3).
  repeat split; congruence.
Qed.

Lemma buildCmd_Args environ :
  cArgs (buildCmd environ ctx svc scmd0)
  = "git" :: safetyFlags ++ [Service_Name svc] ++ scArgs scmd0 ++ ["."].
Proof.
  unfold buildCmd.
  destruct (scArgs scmd0) as [|a l], (scEnv scmd0) as [|b m]; reflexivity.
Qed.

Lemma buildCmd_Env environ :
  cEnv (buildCmd environ ctx svc scmd0) = environ ++ scEnv scmd0.
Proof.
  unfold buildCmd.
  destruct (scArgs scmd0) as [|a l], (scEnv scmd0) as [|b m]; simpl;
    rewrite ?app_nil_r; reflexivity.
Qed.

Lemma buildCmd_Dir environ :
  cDir (buildCmd environ ctx svc scmd0) = scDir scmd0.
Proof.
  unfold buildCmd.
  destruct (scArgs scmd0), (scEnv scmd0); reflexivity.
Qed.
End Calls.

Lemma lookupEnv_app key env1 env2 :
  lookupEnv key (env1 ++ env2) =
  match lookupEnv key env2 with
  | Some v => Some v
  | None => lookupEnv key env1
  end.
Proof.
  unfold lookupEnv. rewrite fold_left_app.
  generalize (fold_left
    (fun acc kv =>
       match splitEntry kv with
       | Some (k, v) => if String.eqb k key then Some v else acc
       | None => acc
       end) env1 None) as a.
  induction env2 as [|kv env2 IH] using rev_ind; intros a.
  - destruct a; reflexivity.
  - rewrite !fold_left_app. simpl.
    destruct (splitEntry kv) as [[k v]|].
    + destruct (String.eqb k key); [reflexivity|apply IH].
    + apply IH.
Qed.

(* ------------------------------------------------------------------ *)
(** ** What a call does after its last system call, and what it logs *)

(** What the main goroutine returns once [cmd.Wait()] has answered. *)
Lemma after_wait w ctx svc scmd sched r :
  In (EvWait r) (events (gitServiceHandler svc w sched ctx scmd)) ->
  ret (gitServiceHandler svc w (sched ++ [Main]) ctx scmd)
  = Some (classify r) /\
  (forall x, ret (gitServiceHandler svc w sched ctx scmd) = Some x ->
             x = classify r).
Proof.
  intros Hin. cbn [gitServiceHandler ret events] in *.
  destruct (Full_exec w ctx svc scmd sched) as (_ & HM & _).
  apply (mt_wait _ _ _ _ _ HM) in Hin.
  rewrite exec_snoc.
  remember (exec w sched ctx svc scmd) as st eqn:Est. clear Est HM.
  destruct Hin as [[Hpc Herr]|Hpc].
  - split.
    + unfold returned, sched1, step, stepMain. rewrite Hpc. cbn.
      rewrite Herr. reflexivity.
    + unfold returned. rewrite Hpc. discriminate.
  - assert (Hr : returned st = Some (classify r))
      by (unfold returned; rewrite Hpc; reflexivity).
    split.
    + apply returned_stays. exact Hr.
    + intros x Hx. congruence.
Qed.

(** What the main goroutine returns once [cmd.Start()] has failed. *)
Lemma after_start_failure w ctx svc scmd sched c e :
  In (EvStart c (Some e)) (events (gitServiceHandler svc w sched ctx scmd)) ->
  ret (gitServiceHandler svc w (sched ++ [Main]) ctx scmd)
  = Some (classifyStart e) /\
  (forall x, ret (gitServiceHandler svc w sched ctx scmd) = Some x ->
             x = classifyStart e).
Proof.
  intros Hin. cbn [gitServiceHandler ret events] in *.
  destruct (Full_exec w ctx svc scmd sched) as (_ & HM & _).
  apply (mt_start_fail _ _ _ _ _ HM) in Hin.
  rewrite exec_snoc.
  remember (exec w sched ctx svc scmd) as st eqn:Est. clear Est HM.
  assert (Hr : returned st = Some (classifyStart e))
    by (unfold returned; rewrite Hin; reflexivity).
  split.
  - apply returned_stays. exact Hr.
  - intros x Hx. congruence.
Qed.

(** The services [Service.Handler] knows. *)
Lemma Handler_unsupported LT LA s w sched ctx cmd :
  ~ In s [UploadPackService; UploadArchiveService; ReceivePackService;
          LFSTransferService; LFSAuthenticateService] ->
  Handler LT LA s w sched ctx cmd
  = {| ret := Some (Some (ErrorString ("unsupported service: " ++ s)%string));
       events := [] |}.
Proof.
  intros Hn. unfold Handler.
  assert (H1 : String.eqb s UploadPackService = false)
    by (apply String.eqb_neq; intros ->; apply Hn; simpl; auto).
  assert (H2 : String.eqb s UploadArchiveService = false)
    by (apply String.eqb_neq; intros ->; apply Hn; simpl; auto).
  assert (H3 : String.eqb s ReceivePackService = false)
    by (apply String.eqb_neq; intros ->; apply Hn; simpl; auto).
  assert (H4 : String.eqb s LFSTransferService = false)
    by (apply String.eqb_neq; intros ->; apply Hn; simpl; auto).
  assert (H5 : String.eqb s LFSAuthenticateService = false)
    by (apply String.eqb_neq; intros ->; apply Hn; simpl; auto 6).
  rewrite H1, H2, H3, H4, H5. reflexivity.
Qed.

(** A schedule that never lets the stdin goroutine run leaves it where
    [go] put it. *)
Lemma stdin_waits w sched st :
  Forall (fun t => t <> Task Stdin) sched ->
  tStdin st = None \/ tStdin st = Some TCopy ->
  tStdin (run w sched st) = None \/ tStdin (run w sched st) = Some TCopy.
Proof.
  intros Hall. revert st.
  induction Hall as [|t sched Ht Hall IH]; intros st Hst.
  - exact Hst.
  - change (run w (t :: sched) st) with (run w sched (sched1 w st t)).
    apply IH. destruct t as [|s].
    + unfold sched1, step, stepMain, pipeStep.
      destruct (pc st); repeat break_match; simpl; auto.
    + destruct (task_step_frame w s Stdin st) as [_ Hf].
      change (tStdin (sched1 w st (Task s)))
        with (task Stdin (sched1 w st (Task s))).
      rewrite Hf by congruence. exact Hst.
Qed.

Lemma completeSchedule_no_stdin :
  Forall (fun t => t <> Task Stdin) completeSchedule.
Proof. rewrite completeSchedule_eq. repeat constructor; discriminate. Qed.

(** The main goroutine does not look at the stdin goroutine: its next
    statement is the same whatever that goroutine has done. *)
Lemma main_ignores_stdin w p st :
  stepMain w (set_task Stdin p st) =
  match stepMain w st with
  | Some st' =>
      Some (match pc st with
            | MGoStdin => if supplied (scmd st) Stdin then st'
                          else set_task Stdin p st'
            | _ => set_task Stdin p st'
            end)
  | None => None
  end.
Proof.
  unfold stepMain, pipeStep.
  destruct (pc st) eqn:Epc; cbn; rewrite ?Epc; repeat break_match;
    try discriminate; reflexivity.
Qed.

(** No run of any call ever logs a failed copy of the child's stderr:
    the test of line 150 reads the variable [err] of the function, which
    is [nil] as long as the stderr goroutine is running. *)
Lemma stderr_copy_error_never_logged w sched ctx svc scmd a :
  ~ In (EvLog (logFormat Stderr) a)
       (events (gitServiceHandler svc w sched ctx scmd)).
Proof.
  cbn [gitServiceHandler events]. intros Hin.
  destruct (Full_exec w ctx svc scmd sched) as (_ & _ & _ & HL & _).
  destruct (lt_log _ _ HL _ _ Hin) as (s & e & Hs & Hf & _).
  destruct s; [discriminate Hf|discriminate Hf|contradiction Hs; reflexivity].
Qed.

(** A failed copy on stdin or stdout is logged by the next statement of
    its goroutine. *)
Lemma other_copy_errors_are_logged w sched ctx svc scmd s e :
  s <> Stderr ->
  In (EvCopy s (Some e)) (events (gitServiceHandler svc w sched ctx scmd)) ->
  In (EvLog (logFormat s) (Some e))
     (events (gitServiceHandler svc w (sched ++ [Task s]) ctx scmd)).
Proof.
  cbn [gitServiceHandler events]. intros Hs Hin.
  destruct (Full_exec w ctx svc scmd sched) as (_ & _ & HT & _ & _).
  destruct (tt_copy _ _ HT _ _ Hin) as (He & Hn & Hc).
  destruct (Full_exec w ctx svc scmd (sched ++ [Task s]))
    as (_ & _ & _ & HL & _).
  apply (lt_logged _ _ HL s e Hs); [congruence|].
  rewrite exec_snoc, task_turn.
  destruct (task s (exec w sched ctx svc scmd)) as [[|r| |]|];
    try congruence; auto.
Qed.

(** The returned value does not depend on how the copies end. *)
Lemma copy_errors_do_not_decide w copy' ctx svc scmd sched sched' r r' :
  let w' := {| Environ := Environ w; pipeErr := pipeErr w;
               startErr := startErr w; copyErr := copy';
               waitErr := waitErr w |} in
  ret (gitServiceHandler svc w sched ctx scmd) = Some r ->
  ret (gitServiceHandler svc w' sched' ctx scmd) = Some r' ->
  r = r'.
Proof.
  intros w' H H'. cbn [gitServiceHandler ret] in H, H'.
  apply returned_result in H, H'. rewrite H, H'. reflexivity.
Qed.

(** Lines 165-168 read the [Stderr] field of the exit error and nothing
    else of what the child wrote. *)
Lemma classify_ExitError state stderr :
  classify (Some (ExitError state stderr))
  = match stderr with
    | [] => Some (ExitError state [])
    | _ :: _ =>
        Some (ErrorString (state ++ ": " ++ string_of_list_byte stderr)%string)
    end.
Proof. destruct stderr; reflexivity. Qed.

(** Where the answers of [cmd.Wait()] in a trace come from. *)
Lemma waitOrigin_step w ctx svc scmd0 t st st' :
  mainInv w ctx svc scmd0 st -> waitOrigin w ctx svc scmd0 st ->
  step w t st = Some st' -> waitOrigin w ctx svc scmd0 st'.
Proof.
  intros [Hsc [_ Hpc]] HW Hstep. unfold waitOrigin in *.
  step_cases Hstep Hsc; clear Hsc; simpl in *; rewrite ?Epc in *;
    simpl in *; intros; in_hyps; auto.
  all: try (eexists; split; [apply Hpc|reflexivity]).
Qed.

Lemma waitOrigin_exec w ctx svc scmd0 sched :
  waitOrigin w ctx svc scmd0 (exec w sched ctx svc scmd0).
Proof.
  rewrite exec_eq.
  refine (proj2 (run_invariant w
            (fun st => Full w ctx svc scmd0 st /\ waitOrigin w ctx svc scmd0 st)
            _ sched _ _)).
  - intros t st st' [HF HW] Hstep. split.
    + eapply Full_step; eauto.
    + eapply waitOrigin_step; eauto. apply HF.
  - split; [apply Full_init|]. intros r [].
Qed.

(** With [cmd.Wait()] answering as [os/exec] does, the test of line 166
    fails for every error: the handler returns the error of
    [cmd.Wait()] as it is unless it is a not-exist error. *)
Lemma classify_likeExec w c e :
  waitLikeExec w -> waitErr w c = Some e ->
  errors_Is_ErrNotExist e = false -> classify (Some e) = Some e.
Proof.
  intros HL Hw His. unfold classify. rewrite His.
  destruct (errors_As_ExitError e) as [[state stderr]|] eqn:Has;
    [|reflexivity].
  rewrite (HL _ _ _ _ Hw Has). reflexivity.
Qed.

Lemma wait_error_returned_bare w sched ctx svc scmd e :
  waitLikeExec w ->
  errors_Is_ErrNotExist e = false ->
  In (EvWait (Some e)) (events (gitServiceHandler svc w sched ctx scmd)) ->
  ret (gitServiceHandler svc w (sched ++ [Main]) ctx scmd) = Some (Some e) /\
  (forall x, ret (gitServiceHandler svc w sched ctx scmd) = Some x ->
             x = Some e).
Proof.
  intros HL His Hw.
  assert (Hc : classify (Some e) = Some e).
  { cbn [gitServiceHandler events] in Hw.
    destruct (waitOrigin_exec w ctx svc scmd sched _ Hw) as (c & _ & Hc).
    eapply classify_likeExec; eauto. }
  apply after_wait in Hw. rewrite Hc in Hw. exact Hw.
Qed.

Lemma childWorld_likeExec ch : waitLikeExec (childWorld ch).
Proof.
  intros c e state stderr Hw Has. simpl in Hw. unfold Cmd_Wait in Hw.
  destruct (chExit ch); [|discriminate Hw].
  injection Hw as <-. simpl in Has. injection Has as _ <-. reflexivity.
Qed.

(* ------------------------------------------------------------------ *)
(** ** The claims *)

(** C1. For the three process-backed services, [gitServiceHandler]
    builds the argument list of the child as: the program name, the five
    safety flags in their fixed order, the short subcommand name (the
    wire name without its [git-] prefix), the caller's extra arguments
    in order, and last the literal ["."].  That list is what the hook
    receives, and without a hook it is what the child is started
    with. *)
Theorem C1_argument_order :
  forall (w : World) (ctx : Context) (svc : Service) (scmd : ServiceCommand),
    In svc [UploadPackService; UploadArchiveService; ReceivePackService] ->
    let args :=
      "git" ::
      ["-c"; "uploadpack.allowFilter=true";
       "-c"; "receive.advertisePushOptions=true";
       "-c"; "filter.lfs.required=";
       "-c"; "filter.lfs.smudge=";
       "-c"; "filter.lfs.clean="]
      ++ [Service_Name svc] ++ scArgs scmd ++ ["."] in
    ("git-" ++ Service_Name svc)%string = svc /\
    cArgs (buildCmd (Environ w) ctx svc scmd) = args /\
    (forall sched c,
       In (EvHook c) (events (gitServiceHandler svc w sched ctx scmd)) ->
       cArgs c = args) /\
    (scCmdFunc scmd = None ->
     forall sched c r,
       In (EvStart c r) (events (gitServiceHandler svc w sched ctx scmd)) ->
       cArgs c = args).
Proof.
  intros w ctx svc scmd Hsvc args.
  assert (Hb : cArgs (buildCmd (Environ w) ctx svc scmd) = args)
    by apply buildCmd_Args.
  split; [|split; [exact Hb|split]].
  - simpl in Hsvc. destruct Hsvc as [<-|[<-|[<-|[]]]]; reflexivity.
  - intros sched c Hc.
    destruct (Full_exec w ctx svc scmd sched) as (_ & HM & _).
    apply (mt_hook _ _ _ _ _ HM) in Hc. subst c. exact Hb.
  - intros Hnone sched c r Hc.
    destruct (Full_exec w ctx svc scmd sched) as (_ & HM & _).
    apply (mt_start _ _ _ _ _ HM) in Hc. destruct Hc as (Hc & _).
    apply startedCmd_frame in Hc. destruct Hc as (-> & _).
    unfold hooked, applyHook. rewrite Hnone. exact Hb.
Qed.

(** C1, at a concrete call. *)
Lemma C1_argument_order_witness :
  cArgs (buildCmd (Environ calmWorld) 0 UploadPackService plainRequest)
  = ["git"; "-c"; "uploadpack.allowFilter=true";
     "-c"; "receive.advertisePushOptions=true";
     "-c"; "filter.lfs.required="; "-c"; "filter.lfs.smudge=";
     "-c"; "filter.lfs.clean="; "upload-pack"; "--stateless-rpc"; "."].
Proof.
  apply (C1_argument_order calmWorld 0 UploadPackService plainRequest).
  simpl. left. reflexivity.
Defined.

(** C2. When [cmd.Start()] or [cmd.Wait()] fails with an error that
    [errors.Is] recognises as [os.ErrNotExist], [gitServiceHandler]
    returns [ErrInvalidRepo]: it has returned it at the latest one turn
    of the main goroutine later, and it returns nothing else. *)
Theorem C2_not_exist_is_invalid_repo :
  forall (w : World) (sched : list tid) (ctx : Context) (svc : Service)
         (scmd : ServiceCommand) (e : error),
    errors_Is_ErrNotExist e = true ->
    (exists c,
       In (EvStart c (Some e))
          (events (gitServiceHandler svc w sched ctx scmd))) \/
    In (EvWait (Some e)) (events (gitServiceHandler svc w sched ctx scmd)) ->
    ret (gitServiceHandler svc w (sched ++ [Main]) ctx scmd)
    = Some (Some ErrInvalidRepo) /\
    (forall x, ret (gitServiceHandler svc w sched ctx scmd) = Some x ->
               x = Some ErrInvalidRepo).
Proof.
  intros w sched ctx svc scmd e His [[c Hc]|Hw].
  - apply after_start_failure in Hc.
    unfold classifyStart in Hc. rewrite His in Hc. exact Hc.
  - apply after_wait in Hw.
    unfold classify in Hw. rewrite His in Hw. exact Hw.
Qed.

(** C2, for a missing working directory. *)
Lemma C2_not_exist_is_invalid_repo_witness :
  ret (gitServiceHandler UploadPackService missingDirWorld
         (repeat Main 5 ++ [Main]) 0 plainRequest)
  = Some (Some ErrInvalidRepo).
Proof.
  apply (C2_not_exist_is_invalid_repo missingDirWorld (repeat Main 5) 0
           UploadPackService plainRequest
           (PathError "chdir" "/srv/repos/demo.git" (Errno ENOENT))).
  - reflexivity.
  - left. eexists. vm_compute. find_event.
Defined.

(** C3. [Service.Handler] answers with the error "unsupported service:
    <s>" and without any event (no pipe, no process) exactly when [s] is
    none of the five services; it hands the three pack services to
    [gitServiceHandler] and the two LFS services to [LFSTransfer] and
    [LFSAuthenticate], with the request it was given. *)
Theorem C3_dispatch :
  forall s : Service,
    (~ In s [UploadPackService; UploadArchiveService; ReceivePackService;
             LFSTransferService; LFSAuthenticateService]
     <->
     forall (LFSTransfer LFSAuthenticate : ServiceHandler) (w : World)
            (sched : list tid) (ctx : Context) (cmd : ServiceCommand),
       Handler LFSTransfer LFSAuthenticate s w sched ctx cmd
       = {| ret := Some (Some (ErrorString
                                 ("unsupported service: " ++ s)%string));
            events := [] |}) /\
    (forall (LFSTransfer LFSAuthenticate : ServiceHandler) (w : World)
            (sched : list tid) (ctx : Context) (cmd : ServiceCommand),
       (In s [UploadPackService; UploadArchiveService; ReceivePackService] ->
        Handler LFSTransfer LFSAuthenticate s w sched ctx cmd
        = gitServiceHandler s w sched ctx cmd) /\
       (s = LFSTransferService ->
        Handler LFSTransfer LFSAuthenticate s w sched ctx cmd
        = LFSTransfer w sched ctx cmd) /\
       (s = LFSAuthenticateService ->
        Handler LFSTransfer LFSAuthenticate s w sched ctx cmd
        = LFSAuthenticate w sched ctx cmd)).
Proof.
  intros s. split.
  - split.
    + intros Hn LT LA w sched ctx cmd. apply Handler_unsupported. exact Hn.
    + intros Hall Hin.
      set (quiet := (fun _ _ _ _ => {| ret := None; events := [] |})
                    : ServiceHandler).
      specialize (Hall quiet quiet calmWorld completeSchedule 0 plainRequest).
      simpl in Hin.
      destruct Hin as [<-|[<-|[<-|[<-|[<-|[]]]]]]; discriminate Hall.
  - intros LT LA w sched ctx cmd. split; [|split].
    + intros Hin. simpl in Hin.
      destruct Hin as [<-|[<-|[<-|[]]]]; reflexivity.
    + intros ->. reflexivity.
    + intros ->. reflexivity.
Qed.

(** C3, for a service name that is not defined. *)
Lemma C3_dispatch_witness :
  Handler UploadPack ReceivePack "git-annex-shell" calmWorld completeSchedule
    0 plainRequest
  = {| ret := Some (Some (ErrorString "unsupported service: git-annex-shell"));
       events := [] |}.
Proof.
  destruct (C3_dispatch "git-annex-shell") as [[H _] _].
  apply H. simpl. intros [E|[E|[E|[E|[E|[]]]]]]; discriminate E.
Defined.

(** C4 (the code departs from the claim).  A child writes a text that
    is not empty to its standard error and exits non-zero; the caller
    has supplied a sink for the error stream.  [cmd.Wait()] reports the
    exit as [os/exec] does, by an exit error whose [Stderr] field is
    empty, so the test of line 166 fails: whatever the schedule, a call
    that returns returns that bare exit error, and never the error that
    reads "<exit description>: <text>".  Under [completeSchedule] the
    stderr goroutine has copied the child's standard error to the
    caller's sink, [cmd.Wait()] has answered, and the bare exit error is
    what the call returns. *)
Theorem C4_exit_error_lacks_stderr_text :
  forall (state : string) (b : byte) (bs : list byte) (sched : list tid),
    let text := b :: bs in
    let w := childWorld {| chExit := Some state; chStderr := text |} in
    let o := gitServiceHandler ReceivePackService w sched 0 plainRequest in
    let o' := gitServiceHandler ReceivePackService w completeSchedule 0
                plainRequest in
    (forall x, ret o = Some x -> x = Some (ExitError state [])) /\
    ret o
    <> Some (Some (ErrorString
                     (state ++ ": " ++ string_of_list_byte text)%string)) /\
    In (EvCopy Stderr None) (events o') /\
    In (EvWait (Some (ExitError state []))) (events o') /\
    ret o' = Some (Some (ExitError state [])).
Proof.
  intros state b bs sched text w o o'. subst o o'.
  assert (Hres : result w 0 ReceivePackService plainRequest
                 = Some (ExitError state []))
    by (vm_compute; reflexivity).
  assert (Hret : forall x,
             ret (gitServiceHandler ReceivePackService w sched 0 plainRequest)
             = Some x -> x = Some (ExitError state [])).
  { intros x Hx. cbn [gitServiceHandler ret] in Hx.
    apply returned_result in Hx. rewrite Hx. exact Hres. }
  split; [exact Hret|].
  split; [intros H; apply Hret in H; discriminate H|].
  split; [vm_compute; find_event|].
  split; [vm_compute; find_event|].
  cbn [gitServiceHandler ret]. rewrite exec_complete, Hres. reflexivity.
Qed.

(** C5 (the code departs from the claim).  With a stderr sink supplied
    and the copy of the child's stderr failing, no run of the call logs
    anything: the failure of the stderr goroutine is not reported.  The
    failure did happen and the call still returns [nil]. *)
Theorem C5_stderr_copy_fault_unreported :
  forall sched : list tid,
    (forall f a,
       ~ In (EvLog f a)
            (events (gitServiceHandler UploadPackService stderrFaultWorld
                       sched 0 plainRequest))) /\
    In (EvCopy Stderr (Some (ErrorString "write: broken pipe")))
       (events (gitServiceHandler UploadPackService stderrFaultWorld
                  completeSchedule 0 plainRequest)) /\
    ret (gitServiceHandler UploadPackService stderrFaultWorld
           completeSchedule 0 plainRequest) = Some None.
Proof.
  intros sched. split; [|split].
  - intros f a Hin. cbn [gitServiceHandler events] in Hin.
    destruct (Full_exec stderrFaultWorld 0 UploadPackService plainRequest
                sched) as (_ & _ & _ & HL & _).
    destruct (lt_log _ _ HL _ _ Hin) as (s & e & Hs & _ & _ & Hc).
    destruct s; [discriminate Hc|discriminate Hc|contradiction Hs; reflexivity].
  - vm_compute. find_event.
  - vm_compute. reflexivity.
Qed.

(** C6. A pipe is asked for only for a stream whose source or sink the
    caller supplied; once the child is started, the streams whose pipe
    was created are exactly the supplied ones; and when the creation of
    a pipe fails the handler has returned that error and [cmd.Start()]
    is never called. *)
Theorem C6_pipes_follow_request :
  forall (w : World) (sched : list tid) (ctx : Context) (svc : Service)
         (scmd : ServiceCommand),
    let o := gitServiceHandler svc w sched ctx scmd in
    (forall s r, In (EvPipe s r) (events o) -> supplied scmd s = true) /\
    (forall c r, In (EvStart c r) (events o) ->
       forall s, supplied scmd s = true <-> In (EvPipe s None) (events o)) /\
    (forall s e, In (EvPipe s (Some e)) (events o) ->
       ret o = Some (Some e) /\
       forall c r, ~ In (EvStart c r) (events o)).
Proof.
  intros w sched ctx svc scmd o. unfold o.
  cbn [gitServiceHandler ret events].
  destruct (Full_exec w ctx svc scmd sched) as (_ & HM & _).
  split; [|split].
  - intros s r. apply (mt_pipe_sup _ _ _ _ _ HM).
  - intros c r Hc s. split.
    + intros Hs. apply (mt_start _ _ _ _ _ HM) in Hc.
      destruct Hc as (_ & _ & Hall). apply Hall. exact Hs.
    + apply (mt_pipe_sup _ _ _ _ _ HM).
  - intros s e He. split.
    + apply (mt_pipe_fail _ _ _ _ _ HM) in He.
      unfold returned. rewrite He. reflexivity.
    + intros c r. apply (mt_pipe_start _ _ _ _ _ HM s e). exact He.
Qed.

(** C6, when the stdout pipe cannot be created. *)
Lemma C6_pipes_follow_request_witness :
  ret (gitServiceHandler UploadPackService noPipeWorld completeSchedule 0
         plainRequest)
  = Some (Some (ErrorString "pipe: too many open files")).
Proof.
  destruct (C6_pipes_follow_request noPipeWorld completeSchedule 0
              UploadPackService plainRequest) as (_ & _ & H).
  apply (H Stdout (ErrorString "pipe: too many open files")).
  vm_compute. find_event.
Defined.

(** C7. The environment of the child is the ambient environment with
    the request's entries appended: that is what the hook receives and,
    without a hook, what the child is started with.  The ambient entries
    are all kept, and for a key the request sets, the request's value is
    the one the child sees. *)
Theorem C7_environment_appended :
  forall (w : World) (ctx : Context) (svc : Service) (scmd : ServiceCommand),
    cEnv (buildCmd (Environ w) ctx svc scmd) = Environ w ++ scEnv scmd /\
    (forall sched c,
       In (EvHook c) (events (gitServiceHandler svc w sched ctx scmd)) ->
       cEnv c = Environ w ++ scEnv scmd) /\
    (scCmdFunc scmd = None ->
     forall sched c r,
       In (EvStart c r) (events (gitServiceHandler svc w sched ctx scmd)) ->
       cEnv c = Environ w ++ scEnv scmd) /\
    (forall key v,
       lookupEnv key (scEnv scmd) = Some v ->
       lookupEnv key (Environ w ++ scEnv scmd) = Some v) /\
    (forall key,
       lookupEnv key (scEnv scmd) = None ->
       lookupEnv key (Environ w ++ scEnv scmd) = lookupEnv key (Environ w)).
Proof.
  intros w ctx svc scmd.
  pose proof (buildCmd_Env ctx svc scmd (Environ w)) as Hb.
  split; [exact Hb|split; [|split; [|split]]].
  - intros sched c Hc.
    destruct (Full_exec w ctx svc scmd sched) as (_ & HM & _).
    apply (mt_hook _ _ _ _ _ HM) in Hc. subst c. exact Hb.
  - intros Hnone sched c r Hc.
    destruct (Full_exec w ctx svc scmd sched) as (_ & HM & _).
    apply (mt_start _ _ _ _ _ HM) in Hc. destruct Hc as (Hc & _).
    apply startedCmd_frame in Hc. destruct Hc as (_ & -> & _).
    unfold hooked, applyHook. rewrite Hnone. exact Hb.
  - intros key v Hv. rewrite lookupEnv_app, Hv. reflexivity.
  - intros key Hv. rewrite lookupEnv_app, Hv. reflexivity.
Qed.

(** C7, for a key set both by the ambient environment and the request. *)
Lemma C7_environment_appended_witness :
  lookupEnv "GIT_PROTOCOL" (Environ calmWorld ++ scEnv plainRequest)
  = Some "version=2".
Proof.
  apply (C7_environment_appended calmWorld 0 UploadPackService plainRequest).
  reflexivity.
Defined.

(** C8. Every supplied output or error sink has a goroutine of its own,
    and in every run that goroutine was started, made its copy and
    called [wg.Done()] strictly before [cmd.Wait()] is called.  The
    stdin goroutine closes the stdin pipe after its copy, failed or not,
    and only then; the main goroutine does not wait for it: it returns
    under a schedule in which the stdin goroutine never runs. *)
Theorem C8_join_then_wait :
  forall (w : World) (sched : list tid) (ctx : Context) (svc : Service)
         (scmd : ServiceCommand),
    let st := exec w sched ctx svc scmd in
    (forall s l1 r l2,
       s <> Stdin -> supplied scmd s = true ->
       trace st = l1 ++ EvWait r :: l2 ->
       In (EvGo s) l1 /\ (exists r', In (EvCopy s r') l1) /\
       In (EvWgDone s) l1) /\
    (forall l1 l2,
       trace st = l1 ++ EvClose Stdin :: l2 ->
       exists r, In (EvCopy Stdin r) l1) /\
    (forall r,
       In (EvCopy Stdin r) (trace st) ->
       In (EvClose Stdin) (trace (run w [Task Stdin; Task Stdin] st))) /\
    (let st' := exec w completeSchedule ctx svc scmd in
     returned st' = Some (result w ctx svc scmd) /\
     (forall r, ~ In (EvCopy Stdin r) (trace st')) /\
     ~ In (EvClose Stdin) (trace st') /\
     (In (EvGo Stdin) (trace st') -> tStdin st' = Some TCopy)).
Proof.
  intros w sched ctx svc scmd st. subst st.
  destruct (Full_exec w ctx svc scmd sched) as (_ & _ & HT & _ & HO).
  split; [|split; [|split]].
  - intros s l1 r l2 Hs Hsup Htr.
    destruct (ot_wait _ _ HO s Hs Hsup l1 (EvWait r) l2 Htr)
      as (x & Hx & <-); [exists r; reflexivity|].
    destruct (in_split _ _ Hx) as (a & b & Hl1).
    assert (Hd : deferred s = EvWgDone s)
      by (destruct s; [contradiction Hs|..]; reflexivity).
    destruct (ot_copy _ _ HO s a (EvWgDone s) (b ++ EvWait r :: l2))
      as (y & Hy & r' & ->).
    { rewrite Htr, Hl1, <- app_assoc. reflexivity. }
    { exact Hd. }
    destruct (in_split _ _ Hy) as (a1 & a2 & Ha).
    destruct (ot_go _ _ HO s a1 (EvCopy s r')
                (a2 ++ EvWgDone s :: b ++ EvWait r :: l2))
      as (z & Hz & <-).
    { rewrite Htr, Hl1, Ha, <- !app_assoc. reflexivity. }
    { exists r'. reflexivity. }
    assert (Ha_l1 : forall e, In e a -> In e l1).
    { intros e He. rewrite Hl1. apply in_or_app. left. exact He. }
    split; [|split].
    + apply Ha_l1. rewrite Ha. apply in_or_app. left. exact Hz.
    + exists r'. apply Ha_l1. exact Hy.
    + exact Hx.
  - intros l1 l2 Htr.
    destruct (ot_copy _ _ HO Stdin l1 (EvClose Stdin) l2 Htr eq_refl)
      as (y & Hy & r' & ->).
    exists r'. exact Hy.
  - intros r Hr.
    destruct (tt_copy _ _ HT Stdin r Hr) as (_ & Hn & Hc).
    pose proof (tt_done _ _ HT Stdin) as Hdone.
    remember (exec w sched ctx svc scmd) as s0 eqn:Es0. clear Es0 HT HO Hr.
    unfold run, sched1, step, stepTask. cbn [fold_left task].
    cbn [task] in Hn, Hc, Hdone.
    destruct (tStdin s0) as [[|r0| |]|] eqn:Et; try congruence.
    + destruct (copyFailed Stdin r0 s0); cbn; apply in_snoc_r.
    + cbn. apply in_snoc_r.
    + cbn. rewrite Et. apply Hdone. reflexivity.
  - intros st'. subst st'.
    destruct (Full_exec w ctx svc scmd completeSchedule)
      as (_ & _ & HT' & _ & HO').
    pose proof (exec_complete w ctx svc scmd) as Hret.
    assert (Hw : tStdin (exec w completeSchedule ctx svc scmd) = None \/
                 tStdin (exec w completeSchedule ctx svc scmd) = Some TCopy).
    { rewrite exec_eq. apply stdin_waits.
      - apply completeSchedule_no_stdin.
      - left. reflexivity. }
    remember (exec w completeSchedule ctx svc scmd) as st' eqn:Est'.
    clear Est'.
    assert (Hnc : forall r, ~ In (EvCopy Stdin r) (trace st')).
    { intros r Hr. destruct (tt_copy _ _ HT' Stdin r Hr) as (_ & Hn & Hc).
      cbn [task] in Hn, Hc. destruct Hw; congruence. }
    split; [exact Hret|split; [exact Hnc|split]].
    + intros Hcl. destruct (in_split _ _ Hcl) as (a & b & Htr).
      destruct (ot_copy _ _ HO' Stdin a (EvClose Stdin) b Htr eq_refl)
        as (y & Hy & r' & ->).
      apply (Hnc r'). rewrite Htr. apply in_or_app. left. exact Hy.
    + intros Hgo. apply (tt_spawned _ _ HT') in Hgo. cbn [task] in Hgo.
      destruct Hw; congruence.
Qed.

(** C8, at a concrete call: both sinks are joined before [cmd.Wait()]. *)
Lemma C8_join_then_wait_witness :
  In (EvWgDone Stderr)
     [EvPipe Stdin None; EvPipe Stdout None; EvPipe Stderr None;
      EvStart (connect (connect (connect
                 (buildCmd (Environ calmWorld) 0 UploadPackService
                    plainRequest) Stdin) Stdout) Stderr) None;
      EvGo Stdin; EvGo Stdout; EvGo Stderr;
      EvCopy Stdout None; EvWgDone Stdout;
      EvCopy Stderr None; EvWgDone Stderr; EvWgWait].
Proof.
  destruct (C8_join_then_wait calmWorld completeSchedule 0 UploadPackService
              plainRequest) as (H & _).
  refine (proj2 (proj2 (H Stderr _ None [] _ _ _))).
  - discriminate.
  - reflexivity.
  - vm_compute. reflexivity.
Defined.

(** C9. [UploadPack], [UploadArchive] and [ReceivePack] give, for every
    context and request, what [Service.Handler] gives for the matching
    service: both are [gitServiceHandler] on that service. *)
Theorem C9_wrappers_agree_with_Handler :
  forall (LFSTransfer LFSAuthenticate : ServiceHandler) (w : World)
         (sched : list tid) (ctx : Context) (cmd : ServiceCommand),
    (UploadPack w sched ctx cmd
     = Handler LFSTransfer LFSAuthenticate UploadPackService w sched ctx cmd /\
     UploadPack w sched ctx cmd
     = gitServiceHandler UploadPackService w sched ctx cmd) /\
    (UploadArchive w sched ctx cmd
     = Handler LFSTransfer LFSAuthenticate UploadArchiveService w sched ctx cmd /\
     UploadArchive w sched ctx cmd
     = gitServiceHandler UploadArchiveService w sched ctx cmd) /\
    (ReceivePack w sched ctx cmd
     = Handler LFSTransfer LFSAuthenticate ReceivePackService w sched ctx cmd /\
     ReceivePack w sched ctx cmd
     = gitServiceHandler ReceivePackService w sched ctx cmd).
Proof.
  intros. repeat split; reflexivity.
Qed.

(** C10. The request descriptor is the same after the call as before,
    on every path and at every moment of the call; what the hook and the
    pipe calls change is the command, and the command that is started is
    the one they left. *)
Theorem C10_descriptor_unchanged :
  forall (w : World) (sched : list tid) (ctx : Context) (svc : Service)
         (scmd0 : ServiceCommand),
    scmd (exec w sched ctx svc scmd0) = scmd0 /\
    (forall c r,
       In (EvStart c r) (events (gitServiceHandler svc w sched ctx scmd0)) ->
       startedCmd w ctx svc scmd0 = inr c).
Proof.
  intros w sched ctx svc scmd0.
  destruct (Full_exec w ctx svc scmd0 sched) as ([[Hsc _] _] & HM & _).
  split; [exact Hsc|].
  intros c r Hc. apply (mt_start _ _ _ _ _ HM) in Hc. apply Hc.
Qed.

(** C10, at a concrete call. *)
Lemma C10_descriptor_unchanged_witness :
  startedCmd calmWorld 0 UploadPackService plainRequest
  = inr (connect (connect (connect
           (buildCmd (Environ calmWorld) 0 UploadPackService plainRequest)
           Stdin) Stdout) Stderr).
Proof.
  destruct (C10_descriptor_unchanged calmWorld completeSchedule 0
              UploadPackService plainRequest) as (_ & H).
  apply (H _ None). vm_compute. find_event.
Defined.

(* ------------------------------------------------------------------ *)
(** ** The further facts hold along every schedule *)

Lemma tl_snoc_free (P : event -> Prop) tr e :
  (forall x, In x (tl tr) -> ~ P x) -> ~ P e ->
  forall x, In x (tl (tr ++ [e])) -> ~ P x.
Proof.
  intros Htl He x Hx. destruct tr as [|a tr]; simpl in Hx.
  - contradiction.
  - apply in_app_or in Hx. destruct Hx as [Hx|[<-|[]]]; auto.
Qed.

Lemma justified_snoc tr e r : justified tr r -> justified (tr ++ [e]) r.
Proof.
  intros [(s & x & H & E)|[(c & x & H & E)|(c & r0 & H1 & H2 & E)]].
  - left. exists s, x. split; [apply in_snoc_l; exact H|exact E].
  - right. left. exists c, x. split; [apply in_snoc_l; exact H|exact E].
  - right. right. exists c, r0. repeat split; try apply in_snoc_l; assumption.
Qed.

Lemma once_nil (P : event -> Prop) : once P [].
Proof. intros l1 y l2 H. destruct l1; discriminate. Qed.

Lemma once_snoc (P : event -> Prop) tr e :
  once P tr -> (P e -> forall x, In x tr -> ~ P x) -> once P (tr ++ [e]).
Proof.
  intros Ho He l1 y l2 Heq Hy.
  apply snoc_split in Heq. destruct Heq as [(_ & <- & <-)|(l2' & _ & ->)].
  - apply He. exact Hy.
  - apply (Ho l1 y l2' eq_refl Hy).
Qed.

Section Extra.
Variable w : World.
Variable ctx : Context.
Variable svc : Service.
Variable scmd0 : ServiceCommand.
Local Arguments supplied : simpl never.

Lemma callTrace_init : callTrace w ctx svc scmd0 (init w ctx svc scmd0).
Proof.
  constructor; simpl; intros; try contradiction; try lia; try discriminate;
    auto.
  destruct s; simpl in *; congruence.
Qed.

Lemma callTrace_step t st st' :
  Full w ctx svc scmd0 st -> callTrace w ctx svc scmd0 st ->
  step w t st = Some st' -> callTrace w ctx svc scmd0 st'.
Proof.
  intros (([Hsc [Herr Hpc]] & (_ & Hin & Hout & Her & _)) & HM & HT & HL & HO)
    [Hem Hht Hhs Hhc Hnp Hst Hnw Hcl Hrt Htk Hwt Hdf Hlg] Hstep.
  constructor.
  - (* ct_empty *)
    clear - Hstep Hsc Hin Hout Her.
    step_cases Hstep Hsc; simpl in *; rewrite ?Epc in *; simpl in *;
      rewrite ?Et in *; simpl in *; intros H; try discriminate H; try lia;
      spec_lia; congruence.
  - (* ct_hook_tail *)
    clear - Hstep Hsc Hht Hem.
    step_cases Hstep Hsc; simpl in *; rewrite ?Epc in *; simpl in *;
      rewrite ?Et in *; simpl in *; try exact Hht;
      try (rewrite (Hem eq_refl); simpl; intros c0 []);
      (intros c0 Hc0;
       refine (tl_snoc_free isHook _ _ _ _ _ Hc0 _);
       [ intros x Hx [c1 ->]; exact (Hht c1 Hx)
       | intros [c1 Hc1]; discriminate Hc1
       | exists c0; reflexivity ]).
  - (* ct_hook_sup *)
    clear - Hstep Hsc Hhs.
    step_cases Hstep Hsc; simpl in *; rewrite ?Epc in *; simpl in *;
      rewrite ?Et in *; simpl in *;
      intros c0 Hc0; in_hyps; try (eapply Hhs; eassumption); congruence.
  - (* ct_hook_called *)
    clear - Hstep Hsc Hhc Hpc.
    step_cases Hstep Hsc; simpl in *; rewrite ?Epc in *; simpl in *;
      rewrite ?Et in *; simpl in *;
      intros Hr Hf; try congruence; try lia;
      first [ rewrite Hpc; apply in_snoc_r
            | try apply in_snoc_l; apply Hhc; [lia|exact Hf]
            | try apply in_snoc_l; apply Hhc; assumption ].
  - (* ct_nopipe *)
    clear - Hstep Hsc Hnp.
    step_cases Hstep Hsc; simpl in *; rewrite ?Epc in *; simpl in *;
      rewrite ?Et in *; simpl in *;
      intros s0 r0 Hr Hp; destruct s0; simpl in *; try lia; in_hyps;
      try (eapply Hnp; [|eassumption]; simpl; lia);
      try (eapply Hnp; [|eassumption]; simpl; assumption).
  - (* ct_started *)
    clear - Hstep Hsc Hst.
    step_cases Hstep Hsc; simpl in *; rewrite ?Epc in *; simpl in *;
      rewrite ?Et in *; simpl in *;
      intros Hr; try lia;
      first [ apply in_snoc_r
            | try apply in_snoc_l; apply Hst; lia
            | try apply in_snoc_l; apply Hst; assumption ].
  - (* ct_nowgwait *)
    clear - Hstep Hsc Hnw.
    step_cases Hstep Hsc; simpl in *; rewrite ?Epc in *; simpl in *;
      rewrite ?Et in *; simpl in *;
      intros Hr Hp; try lia; in_hyps;
      first [ apply Hnw; [lia|assumption] | apply Hnw; assumption ].
  - (* ct_classify *)
    clear - Hstep Hsc Hcl.
    step_cases Hstep Hsc; simpl in *; rewrite ?Epc in *; simpl in *;
      rewrite ?Et in *; simpl in *;
      intros Hp; try discriminate Hp;
      first [ apply in_snoc_r | try apply in_snoc_l; apply Hcl; assumption ].
  - (* ct_ret *)
    clear - Hstep Hsc Hrt Hcl Hst.
    step_cases Hstep Hsc; simpl in *; rewrite ?Epc in *; simpl in *;
      rewrite ?Et in *; simpl in *;
      intros r0 Hp; try discriminate Hp;
      try (first [ apply justified_snoc; apply Hrt; assumption
                 | apply Hrt; assumption ]);
      injection Hp as <-.
    + left. eexists _, _. split; [apply in_snoc_r|reflexivity].
    + left. eexists _, _. split; [apply in_snoc_r|reflexivity].
    + left. eexists _, _. split; [apply in_snoc_r|reflexivity].
    + right. left. eexists _, _. split; [apply in_snoc_r|reflexivity].
    + right. right. exists (cmd st), (err st).
      split; [apply Hst; lia|]. split; [apply Hcl; reflexivity|reflexivity].
  - (* ct_task *)
    clear - Hstep Hsc Htk Hst.
    inst3 Htk.
    step_cases Hstep Hsc; simpl in *; rewrite ?Epc in *; simpl in *;
      rewrite ?Et in *; simpl in *;
      intros s0 Hs0; destruct s0; simpl in *;
      try (exists (cmd st); first [apply in_snoc_l|idtac]; apply Hst; lia);
      match goal with
      | H : _ -> exists c, In (EvStart c None) (trace st) |- _ =>
          destruct H as [c0 Hc0]; [congruence|];
          exists c0; first [ exact Hc0 | apply in_snoc_l; exact Hc0 ]
      end.
  - (* ct_wait *)
    clear - Hstep Hsc Hwt Hst.
    step_cases Hstep Hsc; simpl in *; rewrite ?Epc in *; simpl in *;
      rewrite ?Et in *; simpl in *;
      intros r0 Hr0; in_hyps;
      try (exists (cmd st); apply in_snoc_l; apply Hst; lia);
      destruct (Hwt _ Hr0) as [c0 Hc0]; exists c0;
      first [ exact Hc0 | apply in_snoc_l; exact Hc0 ].
  - (* ct_deferred *)
    clear - Hstep Hsc Hdf Hin Hout Her.
    inst3 Hdf.
    step_cases Hstep Hsc; simpl in *; rewrite ?Epc in *; simpl in *;
      rewrite ?Et in *; simpl in *; spec_lia;
      intros s0 Hs0; destruct s0; simpl in *; in_hyps;
      try reflexivity; try congruence;
      match goal with
      | H : In ?e (trace st) -> _, H' : In ?e (trace st) |- _ =>
          specialize (H H'); congruence
      end.
  - (* ct_logged *)
    clear - Hstep Hsc Hlg HT.
    destruct HT as [_ _ Hck _ Hcd _]. inst3 Hck. inst3 Hcd.
    step_cases Hstep Hsc; simpl in *; rewrite ?Epc in *; simpl in *;
      rewrite ?Et in *; simpl in *;
      intros f0 a0 Hf0; in_hyps;
      try (destruct (Hlg _ _ Hf0) as [s1 Hs1]; exists s1;
           first [ exact Hs1 | apply in_snoc_l; exact Hs1 ]);
      repeat match goal with
        | H : forall r, Some (TCheck _) = Some (TCheck r) -> _ |- _ =>
            specialize (H _ eq_refl)
        end; subst.
    + exists Stdin. apply in_snoc_l. apply H2; congruence.
    + exists Stdout. apply in_snoc_l. apply H3; congruence.
    + exists Stderr. apply in_snoc_l. apply H4; congruence.
Qed.

Lemma onceTrace_init : onceTrace (init w ctx svc scmd0).
Proof. constructor; simpl; intros; apply once_nil. Qed.

Lemma onceTrace_step t st st' :
  Full w ctx svc scmd0 st -> callTrace w ctx svc scmd0 st ->
  onceTrace st -> step w t st = Some st' -> onceTrace st'.
Proof.
  intros (([Hsc _] & (_ & Hin & Hout & Her & _)) & HM & HT & _ & _)
    HC [Hoh Hop Hos Hog Hoc Hod How Hoa] Hstep.
  constructor.
  - (* on_hook *)
    pose proof (ct_empty _ _ _ _ _ HC) as Hem.
    clear - Hstep Hsc Hoh Hem.
    step_cases Hstep Hsc; simpl in *; rewrite ?Epc in *; simpl in *;
      rewrite ?Et in *; simpl in *;
      try exact Hoh;
      (apply once_snoc; [exact Hoh|]); intros [c0 Hc0];
      try discriminate Hc0.
    rewrite (Hem eq_refl). intros x [].
  - (* on_pipe *)
    pose proof (ct_nopipe _ _ _ _ _ HC) as Hnp.
    clear - Hstep Hsc Hop Hnp.
    step_cases Hstep Hsc; simpl in *; rewrite ?Epc in *; simpl in *;
      rewrite ?Et in *; simpl in *;
      intros s0; try apply Hop;
      (apply once_snoc; [apply Hop|]); intros [r0 Hr0];
      try discriminate Hr0; injection Hr0 as <- <-;
      intros x Hx [r1 ->]; (eapply Hnp; [|exact Hx]); simpl; lia.
  - (* on_start *)
    pose proof (mt_nostart _ _ _ _ _ HM) as Hns.
    clear - Hstep Hsc Hos Hns.
    step_cases Hstep Hsc; simpl in *; rewrite ?Epc in *; simpl in *;
      rewrite ?Et in *; simpl in *;
      try exact Hos;
      (apply once_snoc; [exact Hos|]); intros (c0 & r0 & Hr0);
      try discriminate Hr0;
      intros x Hx (c1 & r1 & ->); apply (Hns ltac:(lia) _ _ Hx).
  - (* on_go *)
    pose proof (tt_spawned _ _ HT) as Hsp.
    clear - Hstep Hsc Hog Hsp Hin Hout Her.
    step_cases Hstep Hsc; simpl in *; rewrite ?Epc in *; simpl in *;
      rewrite ?Et in *; simpl in *; spec_lia;
      intros s0; try apply Hog;
      (apply once_snoc; [apply Hog|]); intros Hr0;
      try discriminate Hr0; injection Hr0 as ->;
      intros x Hx <-; apply Hsp in Hx; simpl in Hx; congruence.
  - (* on_copy *)
    pose proof (tt_copy _ _ HT) as Hcp.
    clear - Hstep Hsc Hoc Hcp.
    step_cases Hstep Hsc; simpl in *; rewrite ?Epc in *; simpl in *;
      rewrite ?Et in *; simpl in *;
      intros s0; try apply Hoc;
      (apply once_snoc; [apply Hoc|]); intros [r0 Hr0];
      try discriminate Hr0; injection Hr0 as <- <-;
      intros x Hx [r1 ->]; apply Hcp in Hx; simpl in Hx;
      destruct Hx as (_ & _ & Hx); congruence.
  - (* on_deferred *)
    pose proof (ct_deferred _ _ _ _ _ HC) as Hdf.
    clear - Hstep Hsc Hod Hdf.
    step_cases Hstep Hsc; simpl in *; rewrite ?Epc in *; simpl in *;
      rewrite ?Et in *; simpl in *;
      intros s0; try apply Hod;
      (apply once_snoc; [apply Hod|]); intros Hr0;
      destruct s0; try discriminate Hr0;
      intros x Hx <-;
      first [ apply (Hdf Stdin) in Hx | apply (Hdf Stdout) in Hx
            | apply (Hdf Stderr) in Hx ]; simpl in Hx; congruence.
  - (* on_wgwait *)
    pose proof (ct_nowgwait _ _ _ _ _ HC) as Hnw.
    clear - Hstep Hsc How Hnw.
    step_cases Hstep Hsc; simpl in *; rewrite ?Epc in *; simpl in *;
      rewrite ?Et in *; simpl in *;
      try exact How;
      (apply once_snoc; [exact How|]); intros Hr0;
      try discriminate Hr0;
      intros x Hx <-; apply (Hnw ltac:(lia) Hx).
  - (* on_wait *)
    pose proof (mt_nowait _ _ _ _ _ HM) as Hnw.
    clear - Hstep Hsc Hoa Hnw.
    step_cases Hstep Hsc; simpl in *; rewrite ?Epc in *; simpl in *;
      rewrite ?Et in *; simpl in *;
      try exact Hoa;
      (apply once_snoc; [exact Hoa|]); intros [r0 Hr0];
      try discriminate Hr0;
      intros x Hx [r1 ->]; apply (Hnw ltac:(lia) _ Hx).
Qed.

Lemma mainOrder_init : mainOrder scmd0 (init w ctx svc scmd0).
Proof. constructor; simpl; intros; apply before_nil. Qed.

Lemma mainOrder_step t st st' :
  Full w ctx svc scmd0 st -> callTrace w ctx svc scmd0 st ->
  mainOrder scmd0 st -> step w t st = Some st' -> mainOrder scmd0 st'.
Proof.
  intros (([Hsc _] & _) & HM & _) HC [Hps Hsg Hsw] Hstep.
  pose proof (ct_started _ _ _ _ _ HC) as Hst.
  constructor.
  - (* mo_pipe_start *)
    pose proof (mt_pipe_in _ _ _ _ _ HM) as Hpi.
    pose proof (mt_pipe_out _ _ _ _ _ HM) as Hpo.
    pose proof (mt_pipe_err _ _ _ _ _ HM) as Hpe.
    clear - Hstep Hsc Hps Hpi Hpo Hpe.
    step_cases Hstep Hsc; simpl in *; rewrite ?Epc in *; simpl in *;
      rewrite ?Et in *; simpl in *;
      intros s0 Hs0; try (apply Hps; exact Hs0);
      (apply before_snoc; [apply Hps; exact Hs0|]);
      intros (c0 & r0 & Hr0); try discriminate Hr0;
      exists (EvPipe s0 None); (split; [|reflexivity]);
      destruct s0; first [apply Hpi|apply Hpo|apply Hpe];
      first [lia|exact Hs0].
  - (* mo_start_go *)
    clear - Hstep Hsc Hsg Hst.
    step_cases Hstep Hsc; simpl in *; rewrite ?Epc in *; simpl in *;
      rewrite ?Et in *; simpl in *;
      try exact Hsg;
      (apply before_snoc; [exact Hsg|]); intros [s0 Hs0];
      try discriminate Hs0;
      exists (EvStart (cmd st) None);
      (split; [apply Hst; lia|exists (cmd st); reflexivity]).
  - (* mo_start_wait *)
    clear - Hstep Hsc Hsw Hst.
    step_cases Hstep Hsc; simpl in *; rewrite ?Epc in *; simpl in *;
      rewrite ?Et in *; simpl in *;
      try exact Hsw;
      (apply before_snoc; [exact Hsw|]); intros [s0 Hs0];
      try discriminate Hs0;
      exists (EvStart (cmd st) None);
      (split; [apply Hst; lia|exists (cmd st); reflexivity]).
Qed.

Lemma goTrace_init : goTrace scmd0 (init w ctx svc scmd0).
Proof. constructor; simpl; intros; try contradiction; lia. Qed.

Lemma goTrace_step t st st' :
  Full w ctx svc scmd0 st -> callTrace w ctx svc scmd0 st ->
  goTrace scmd0 st -> step w t st = Some st' -> goTrace scmd0 st'.
Proof.
  intros (([Hsc _] & (_ & _ & _ & _ & Hso & Hse & _)) & HM & HT & _ & _)
    HC [Hww Hcl Hdn Hgi Hwg] Hstep.
  pose proof (ct_started _ _ _ _ _ HC) as Hst.
  constructor.
  - (* gt_wgwait *)
    clear - Hstep Hsc Hww Hst.
    step_cases Hstep Hsc; simpl in *; rewrite ?Epc in *; simpl in *;
      rewrite ?Et in *; simpl in *;
      intros Hr0; in_hyps;
      try (exists (cmd st); apply in_snoc_l; apply Hst; lia);
      destruct (Hww Hr0) as [c0 Hc0]; exists c0;
      first [ exact Hc0 | apply in_snoc_l; exact Hc0 ].
  - (* gt_close *)
    clear - Hstep Hsc Hcl.
    step_cases Hstep Hsc; simpl in *; rewrite ?Epc in *; simpl in *;
      rewrite ?Et in *; simpl in *;
      intros s0 Hs0; in_hyps; first [ reflexivity | apply Hcl; exact Hs0 ].
  - (* gt_done *)
    clear - Hstep Hsc Hdn.
    step_cases Hstep Hsc; simpl in *; rewrite ?Epc in *; simpl in *;
      rewrite ?Et in *; simpl in *;
      intros s0 Hs0; in_hyps; first [ discriminate | apply Hdn; exact Hs0 ].
  - (* gt_go_in *)
    clear - Hstep Hsc Hgi.
    step_cases Hstep Hsc; simpl in *; rewrite ?Epc in *; simpl in *;
      rewrite ?Et in *; simpl in *;
      intros Hr Hs; try lia; try congruence;
      first [ apply Hgi; [lia|exact Hs] | apply Hgi; assumption ].
  - (* gt_wait_go *)
    pose proof (tt_go _ _ HT) as Hgo.
    clear - Hstep Hsc Hwg Hgo Hso Hse Hgi.
    step_cases Hstep Hsc; simpl in *; rewrite ?Epc in *; simpl in *;
      rewrite ?Et in *; simpl in *;
      intros r0 s0 Hr0 Hs0; in_hyps;
      try (first [ apply in_snoc_l | idtac ]; eapply Hwg; eassumption).
    apply in_snoc_l. apply Hgo.
    destruct s0; simpl; [apply Hgi|apply Hso|apply Hse]; try lia; exact Hs0.
Qed.

Lemma Further_init : Further w ctx svc scmd0 (init w ctx svc scmd0).
Proof.
  split; [apply callTrace_init|].
  split; [apply onceTrace_init|].
  split; [apply mainOrder_init|apply goTrace_init].
Qed.

Lemma Both_run sched st :
  Full w ctx svc scmd0 st /\ Further w ctx svc scmd0 st ->
  Full w ctx svc scmd0 (run w sched st) /\
  Further w ctx svc scmd0 (run w sched st).
Proof.
  apply (run_invariant w
           (fun s => Full w ctx svc scmd0 s /\ Further w ctx svc scmd0 s)).
  intros t s s' [HF (HC & HO & HMo & HG)] Hstep.
  split; [eapply Full_step; eauto|].
  split; [eapply callTrace_step; eauto|].
  split; [eapply onceTrace_step; eauto|].
  split; [eapply mainOrder_step; eauto|eapply goTrace_step; eauto].
Qed.

Lemma Further_exec sched :
  Further w ctx svc scmd0 (exec w sched ctx svc scmd0).
Proof.
  rewrite exec_eq. apply Both_run. split; [apply Full_init|apply Further_init].
Qed.
End Extra.

(* ------------------------------------------------------------------ *)
(** ** Further properties of the code *)

Lemma substring_all (t : string) : substring 0 (String.length t) t = t.
Proof. induction t as [|c t IH]; simpl; [reflexivity|rewrite IH; reflexivity]. Qed.

Lemma TrimPrefix_app (p t : string) : TrimPrefix (p ++ t)%string p = t.
Proof.
  unfold TrimPrefix, HasPrefix.
  assert (Hp : String.prefix p (p ++ t)%string = true).
  { induction p as [|c p IH]; simpl.
    - destruct t; reflexivity.
    - destruct (ascii_dec c c) as [_|N]; [exact IH|contradiction N; reflexivity]. }
  rewrite Hp. clear Hp.
  induction p as [|c p IH]; simpl.
  - rewrite Nat.sub_0_r. apply substring_all.
  - exact IH.
Qed.

Lemma HasPrefix_split (s p : string) :
  HasPrefix s p = true -> exists t, s = (p ++ t)%string.
Proof.
  unfold HasPrefix. revert s. induction p as [|c p IH]; intros s H.
  - exists s. reflexivity.
  - destruct s as [|d s]; simpl in H; [discriminate|].
    destruct (ascii_dec c d) as [->|]; [|discriminate].
    destruct (IH s H) as [t ->]. exists t. reflexivity.
Qed.

(** X1. [Service.Name] removes one leading ["git-"] and nothing else: a
    name that starts with it is that prefix followed by its [Name], any
    other name is its own [Name]. *)
Theorem X1_Name_strips_one_prefix :
  forall s : Service,
    (forall t, s = ("git-" ++ t)%string -> Service_Name s = t) /\
    (HasPrefix s "git-" = true -> s = ("git-" ++ Service_Name s)%string) /\
    (HasPrefix s "git-" = false -> Service_Name s = s).
Proof.
  intros s. split; [|split].
  - intros t ->. apply TrimPrefix_app.
  - intros H. destruct (HasPrefix_split s "git-" H) as [t ->].
    unfold Service_Name, Service_String. rewrite TrimPrefix_app. reflexivity.
  - intros H. unfold Service_Name, Service_String, TrimPrefix.
    rewrite H. reflexivity.
Qed.

(** X1, for a name that carries the prefix twice. *)
Lemma X1_Name_strips_one_prefix_witness :
  Service_Name "git-git-upload-pack" = "git-upload-pack".
Proof.
  apply (X1_Name_strips_one_prefix "git-git-upload-pack").
  reflexivity.
Defined.

(** The command [cmd.Start()] is called on is the hook's, with the
    supplied streams connected. *)
Lemma startedCmd_shape w ctx svc scmd c :
  startedCmd w ctx svc scmd = inr c ->
  let h := hooked w ctx svc scmd in
  c = {| cCtx := cCtx h; cPath := cPath h; cArgs := cArgs h;
         cEnv := cEnv h; cDir := cDir h;
         cStdinPipe := if supplied scmd Stdin then true else cStdinPipe h;
         cStdoutPipe := if supplied scmd Stdout then true else cStdoutPipe h;
         cStderrPipe := if supplied scmd Stderr then true else cStderrPipe h |}.
Proof.
  intros H h. revert H. unfold startedCmd, pipeStage. fold h.
  destruct (supplied scmd Stdin), (supplied scmd Stdout),
    (supplied scmd Stderr);
    repeat match goal with
      | |- context [pipeErr w ?s ?c] => destruct (pipeErr w s c)
      end;
    intros H; try discriminate H; injection H as <-;
    destruct h; reflexivity.
Qed.

(** X2. The child is the program [git], bound to the call's context,
    run in the request's directory: that is the command the hook
    receives, and without a hook the command that is started, with a
    standard stream connected to a pipe exactly when the caller supplied
    its source or sink. *)
Theorem X2_child_directory_and_streams :
  forall (w : World) (sched : list tid) (ctx : Context) (svc : Service)
         (scmd : ServiceCommand),
    let o := gitServiceHandler svc w sched ctx scmd in
    (forall c, In (EvHook c) (events o) ->
       cDir c = scDir scmd /\ cPath c = "git" /\ cCtx c = ctx /\
       cStdinPipe c = false /\ cStdoutPipe c = false /\
       cStderrPipe c = false) /\
    (scCmdFunc scmd = None ->
     forall c r, In (EvStart c r) (events o) ->
       cDir c = scDir scmd /\ cPath c = "git" /\ cCtx c = ctx /\
       cStdinPipe c = supplied scmd Stdin /\
       cStdoutPipe c = supplied scmd Stdout /\
       cStderrPipe c = supplied scmd Stderr).
Proof.
  intros w sched ctx svc scmd o. unfold o. cbn [gitServiceHandler events].
  destruct (Full_exec w ctx svc scmd sched) as (_ & HM & _).
  assert (Hb : forall c, c = buildCmd (Environ w) ctx svc scmd ->
            cDir c = scDir scmd /\ cPath c = "git" /\ cCtx c = ctx /\
            cStdinPipe c = false /\ cStdoutPipe c = false /\
            cStderrPipe c = false).
  { intros c ->. unfold buildCmd.
    destruct (scArgs scmd), (scEnv scmd); repeat split; reflexivity. }
  split.
  - intros c Hc. apply Hb. apply (mt_hook _ _ _ _ _ HM) in Hc. exact Hc.
  - intros Hnone c r Hc.
    apply (mt_start _ _ _ _ _ HM) in Hc. destruct Hc as (Hc & _).
    apply startedCmd_shape in Hc. cbv zeta in Hc.
    unfold hooked, applyHook, built in Hc. rewrite Hnone in Hc.
    destruct (Hb _ eq_refl) as (Hd & Hp & Hx & Hi & Ho & He).
    rewrite Hd, Hp, Hx, Hi, Ho, He in Hc. subst c.
    cbn [cDir cPath cCtx cStdinPipe cStdoutPipe cStderrPipe].
    destruct (supplied scmd Stdin), (supplied scmd Stdout),
      (supplied scmd Stderr); repeat split; reflexivity.
Qed.

(** X2, for a request with only an output sink. *)
Lemma X2_child_directory_and_streams_witness :
  let c :=
    connect (buildCmd (Environ calmWorld) 7 UploadArchiveService
               outputOnlyRequest) Stdout in
  cDir c = "/srv/repos/demo.git" /\ cPath c = "git" /\ cCtx c = 7 /\
  cStdinPipe c = false /\ cStdoutPipe c = true /\ cStderrPipe c = false.
Proof.
  intros c.
  destruct (X2_child_directory_and_streams calmWorld completeSchedule 7
              UploadArchiveService outputOnlyRequest) as [_ H].
  apply (H eq_refl c None). vm_compute. find_event.
Defined.

(** X3. The hook is called only when the request has one, with the
    command as lines 61-81 built it, as the very first thing the call
    does and never again; every call that has a hook and has done
    anything at all, or has returned, has called it; and the child is
    started with the arguments, environment and directory the hook
    left. *)
Theorem X3_hook_first_and_once :
  forall (w : World) (sched : list tid) (ctx : Context) (svc : Service)
         (scmd : ServiceCommand),
    let o := gitServiceHandler svc w sched ctx scmd in
    let b := buildCmd (Environ w) ctx svc scmd in
    (forall c, In (EvHook c) (events o) ->
       scCmdFunc scmd <> None /\ c = b /\
       exists rest, events o = EvHook c :: rest /\
                    forall c', ~ In (EvHook c') rest) /\
    (forall f, scCmdFunc scmd = Some f ->
       (forall e, In e (events o) -> In (EvHook b) (events o)) /\
       (forall x, ret o = Some x -> In (EvHook b) (events o)) /\
       (forall c r, In (EvStart c r) (events o) ->
          cArgs c = cArgs (f b) /\ cEnv c = cEnv (f b) /\
          cDir c = cDir (f b))).
Proof.
  intros w sched ctx svc scmd o b. unfold o.
  cbn [gitServiceHandler events ret].
  destruct (Full_exec w ctx svc scmd sched) as (_ & HM & _).
  destruct (Further_exec w ctx svc scmd sched) as (HC & _).
  remember (exec w sched ctx svc scmd) as st eqn:Est. clear Est.
  split.
  - intros c Hc. split; [exact (ct_hook_sup _ _ _ _ _ HC c Hc)|].
    split; [exact (mt_hook _ _ _ _ _ HM c Hc)|].
    pose proof (ct_hook_tail _ _ _ _ _ HC) as Htl.
    destruct (trace st) as [|e rest]; [contradiction|].
    simpl in Htl. destruct Hc as [->|Hc]; [|contradiction (Htl c Hc)].
    exists rest. split; [reflexivity|exact Htl].
  - intros f Hf.
    assert (Hcalled : 1 <= rank (pc st) -> In (EvHook b) (trace st)).
    { intros Hr. apply (ct_hook_called _ _ _ _ _ HC Hr). congruence. }
    split; [|split].
    + intros e He. apply Hcalled.
      destruct (rank (pc st)) eqn:Er; [|lia].
      rewrite (ct_empty _ _ _ _ _ HC Er) in He. contradiction.
    + intros x Hx. apply Hcalled. unfold returned in Hx.
      destruct (pc st); try discriminate Hx. simpl. lia.
    + intros c r Hc.
      apply (mt_start _ _ _ _ _ HM) in Hc. destruct Hc as (Hc & _).
      apply startedCmd_frame in Hc.
      unfold hooked, applyHook, built in Hc. rewrite Hf in Hc. exact Hc.
Qed.

(** X3, for a hook that adds an environment entry. *)
Lemma X3_hook_first_and_once_witness :
  cEnv (connect
          (set_Env (buildCmd (Environ calmWorld) 0 UploadPackService
                      hookRequest)
             (Environ calmWorld ++ ["GIT_TRACE=1"])) Stdout)
  = cEnv (set_Env (buildCmd (Environ calmWorld) 0 UploadPackService
                     hookRequest)
            (cEnv (buildCmd (Environ calmWorld) 0 UploadPackService
                     hookRequest) ++ ["GIT_TRACE=1"])).
Proof.
  destruct (X3_hook_first_and_once calmWorld completeSchedule 0
              UploadPackService hookRequest) as [_ H].
  refine (proj1 (proj2 (proj2 (proj2 (H _ eq_refl)) _ None _))).
  vm_compute. find_event.
Defined.

(** Everything past line 120 needs a child that has started. *)
Lemma after_setup_started w ctx svc scmd sched ev :
  In ev (trace (exec w sched ctx svc scmd)) -> ~ setupEvent ev ->
  exists c, In (EvStart c None) (trace (exec w sched ctx svc scmd)).
Proof.
  destruct (Full_exec w ctx svc scmd sched) as (_ & _ & HT & _ & _).
  destruct (Further_exec w ctx svc scmd sched) as (HC & _ & _ & HG).
  remember (exec w sched ctx svc scmd) as st eqn:Est. clear Est.
  intros Hin Hns.
  assert (Htask : forall s, task s st <> None ->
                  exists c, In (EvStart c None) (trace st))
    by exact (ct_task _ _ _ _ _ HC).
  assert (Hcopy : forall s r, In (EvCopy s r) (trace st) ->
                  exists c, In (EvStart c None) (trace st)).
  { intros s r H. apply (Htask s). apply (tt_copy _ _ HT s r H). }
  assert (Hdef : forall s, In (deferred s) (trace st) ->
                 exists c, In (EvStart c None) (trace st)).
  { intros s H. apply (Htask s).
    rewrite (ct_deferred _ _ _ _ _ HC s H). discriminate. }
  destruct ev as [c|s r|c r|s|s r|f a|s|s| |r]; simpl in Hns;
    try (contradiction Hns; exact I).
  - apply (Htask s). apply (tt_spawned _ _ HT). exact Hin.
  - apply (Hcopy s r Hin).
  - destruct (ct_logged _ _ _ _ _ HC f a Hin) as [s Hs]. apply (Hcopy s a Hs).
  - pose proof (gt_close _ _ HG s Hin) as ->. apply (Hdef Stdin). exact Hin.
  - pose proof (gt_done _ _ HG s Hin) as Hne. apply (Hdef s).
    destruct s; [contradiction Hne; reflexivity|exact Hin|exact Hin].
  - apply (gt_wgwait _ _ HG Hin).
  - apply (ct_wait _ _ _ _ _ HC r Hin).
Qed.

Lemma setupEvent_dec ev : setupEvent ev \/ ~ setupEvent ev.
Proof. destruct ev; simpl; auto. Qed.

(** X4. Nothing of the concurrent phase (no goroutine, copy, log entry,
    close, [wg.Done()], [wg.Wait()] or [cmd.Wait()]) happens unless
    [cmd.Start()] has succeeded; so a call in which the creation of a
    pipe or the start of the child failed has called the hook, asked
    for pipes and tried to start, and done nothing else. *)
Theorem X4_nothing_after_failed_setup :
  forall (w : World) (sched : list tid) (ctx : Context) (svc : Service)
         (scmd : ServiceCommand),
    let o := gitServiceHandler svc w sched ctx scmd in
    (forall ev, In ev (events o) -> ~ setupEvent ev ->
       exists c, In (EvStart c None) (events o)) /\
    (forall s e, In (EvPipe s (Some e)) (events o) ->
       forall ev, In ev (events o) -> setupEvent ev) /\
    (forall c e, In (EvStart c (Some e)) (events o) ->
       forall ev, In ev (events o) -> setupEvent ev).
Proof.
  intros w sched ctx svc scmd o. unfold o. cbn [gitServiceHandler events].
  pose proof (after_setup_started w ctx svc scmd sched) as Hafter.
  destruct (Full_exec w ctx svc scmd sched) as (_ & HM & _).
  split; [exact Hafter|split].
  - intros s e He ev Hev.
    destruct (setupEvent_dec ev) as [Hs|Hn]; [exact Hs|].
    destruct (Hafter ev Hev Hn) as [c Hc].
    contradiction (mt_pipe_start _ _ _ _ _ HM s e c None He Hc).
  - intros c e He ev Hev.
    destruct (setupEvent_dec ev) as [Hs|Hn]; [exact Hs|].
    destruct (Hafter ev Hev Hn) as [c' Hc'].
    destruct (mt_start _ _ _ _ _ HM c (Some e) He) as (E1 & R1 & _).
    destruct (mt_start _ _ _ _ _ HM c' None Hc') as (E2 & R2 & _).
    rewrite E1 in E2. injection E2 as <-. congruence.
Qed.

(** X4, when the stdout pipe cannot be created. *)
Lemma X4_nothing_after_failed_setup_witness :
  Forall setupEvent
    (events (gitServiceHandler UploadPackService noPipeWorld
               completeSchedule 0 plainRequest)).
Proof.
  apply Forall_forall. intros ev Hev.
  destruct (X4_nothing_after_failed_setup noPipeWorld completeSchedule 0
              UploadPackService plainRequest) as (_ & H & _).
  apply (H Stdout (ErrorString "pipe: too many open files")); [|exact Hev].
  vm_compute. find_event.
Defined.

(** X5. When [cmd.Start()] fails with an error that [errors.Is] does not
    recognise as [os.ErrNotExist], the handler returns that very error:
    it has returned it at the latest one turn of the main goroutine
    later, and it returns nothing else. *)
Theorem X5_start_failure_returned_as_is :
  forall (w : World) (sched : list tid) (ctx : Context) (svc : Service)
         (scmd : ServiceCommand) (c : Cmd) (e : error),
    errors_Is_ErrNotExist e = false ->
    In (EvStart c (Some e)) (events (gitServiceHandler svc w sched ctx scmd)) ->
    ret (gitServiceHandler svc w (sched ++ [Main]) ctx scmd) = Some (Some e) /\
    (forall x, ret (gitServiceHandler svc w sched ctx scmd) = Some x ->
               x = Some e).
Proof.
  intros w sched ctx svc scmd c e His Hc.
  apply after_start_failure in Hc.
  unfold classifyStart in Hc. rewrite His in Hc. exact Hc.
Qed.

(** X5, for a child that may not be executed. *)
Lemma X5_start_failure_returned_as_is_witness :
  ret (gitServiceHandler UploadPackService deniedWorld
         (repeat Main 5 ++ [Main]) 0 plainRequest)
  = Some (Some (PathError "fork/exec" "/usr/bin/git" (Errno 13))).
Proof.
  eapply (X5_start_failure_returned_as_is deniedWorld (repeat Main 5) 0
            UploadPackService plainRequest).
  - reflexivity.
  - vm_compute. find_event.
Defined.

(** X6. When [cmd.Wait()] fails with an error that is neither a
    not-exist error nor, anywhere on its chain, an exit error, the
    handler returns that very error; when the chain holds an exit error
    without stderr bytes it also returns the error as it is, wrappers
    included. *)
Theorem X6_wait_failure_returned_as_is :
  forall (w : World) (sched : list tid) (ctx : Context) (svc : Service)
         (scmd : ServiceCommand) (e : error),
    errors_Is_ErrNotExist e = false ->
    (errors_As_ExitError e = None \/
     exists state, errors_As_ExitError e = Some (state, [])) ->
    In (EvWait (Some e)) (events (gitServiceHandler svc w sched ctx scmd)) ->
    ret (gitServiceHandler svc w (sched ++ [Main]) ctx scmd) = Some (Some e) /\
    (forall x, ret (gitServiceHandler svc w sched ctx scmd) = Some x ->
               x = Some e).
Proof.
  intros w sched ctx svc scmd e His Has Hw.
  apply after_wait in Hw.
  assert (Hc : classify (Some e) = Some e).
  { unfold classify. rewrite His.
    destruct Has as [->|[state ->]]; reflexivity. }
  rewrite Hc in Hw. exact Hw.
Qed.

(** X6, for a child that was killed. *)
Lemma X6_wait_failure_returned_as_is_witness :
  ret (gitServiceHandler UploadPackService interruptedWorld
         (completeSchedule ++ [Main]) 0 plainRequest)
  = Some (Some (ErrorString "signal: killed")).
Proof.
  apply (X6_wait_failure_returned_as_is interruptedWorld completeSchedule 0
           UploadPackService plainRequest (ErrorString "signal: killed")).
  - reflexivity.
  - left. reflexivity.
  - vm_compute. find_event.
Defined.

Lemma classify_nil r : classify r = None -> r = None.
Proof.
  destruct r as [e|]; [|reflexivity]. unfold classify.
  destruct (errors_Is_ErrNotExist e); [discriminate|].
  destruct (errors_As_ExitError e) as [[state stderr]|]; [|discriminate].
  destruct (Nat.ltb 0 (List.length stderr)); discriminate.
Qed.

(** X7. Whatever the handler returns comes from one of three places: the
    error of a pipe that could not be created, the classified error of
    a failed [cmd.Start()], or the classified result of [cmd.Wait()]
    after a successful start.  In particular it returns [nil] only when
    the child was started and [cmd.Wait()] reported success. *)
Theorem X7_returned_value_is_justified :
  forall (w : World) (sched : list tid) (ctx : Context) (svc : Service)
         (scmd : ServiceCommand) (x : option error),
    let o := gitServiceHandler svc w sched ctx scmd in
    ret o = Some x ->
    justified (events o) x /\
    (x = None ->
     In (EvWait None) (events o) /\
     exists c, In (EvStart c None) (events o)).
Proof.
  intros w sched ctx svc scmd x o. unfold o.
  cbn [gitServiceHandler events ret].
  destruct (Further_exec w ctx svc scmd sched) as (HC & _).
  remember (exec w sched ctx svc scmd) as st eqn:Est. clear Est.
  intros Hx. unfold returned in Hx.
  destruct (pc st) eqn:Epc; try discriminate Hx. injection Hx as ->.
  pose proof (ct_ret _ _ _ _ _ HC x Epc) as Hj.
  split; [exact Hj|]. intros ->.
  destruct Hj as [(s & e & _ & E)|[(c & e & _ & E)|(c & r0 & Hs & Hw & E)]].
  - discriminate E.
  - unfold classifyStart in E. destruct (errors_Is_ErrNotExist e); discriminate E.
  - symmetry in E. apply classify_nil in E. subst r0.
    split; [exact Hw|exists c; exact Hs].
Qed.

(** X7, for a call that succeeds. *)
Lemma X7_returned_value_is_justified_witness :
  In (EvWait None)
     (events (gitServiceHandler UploadPackService calmWorld completeSchedule
                0 plainRequest)).
Proof.
  refine (proj1 (proj2 (X7_returned_value_is_justified calmWorld
                          completeSchedule 0 UploadPackService plainRequest
                          None _) eq_refl)).
  vm_compute. reflexivity.
Defined.

(** X8. The returned value does not depend on the order in which the
    goroutines run: two runs of one call, in one world, that both
    return, return the same. *)
Theorem X8_schedule_does_not_decide :
  forall (w : World) (sched sched' : list tid) (ctx : Context)
         (svc : Service) (scmd : ServiceCommand) (x x' : option error),
    ret (gitServiceHandler svc w sched ctx scmd) = Some x ->
    ret (gitServiceHandler svc w sched' ctx scmd) = Some x' ->
    x = x'.
Proof.
  intros w sched sched' ctx svc scmd x x' H H'.
  cbn [gitServiceHandler ret] in H, H'.
  apply returned_result in H, H'. congruence.
Qed.

(** X8, for two schedules of a child that exits with status 128. *)
Lemma X8_schedule_does_not_decide_witness :
  let sched' :=
    repeat Main 12 ++ [Task Stdin; Task Stderr; Task Stdout;
                       Task Stdin; Task Stdout; Task Stderr;
                       Task Stdout; Task Stderr; Task Stdin;
                       Main; Main; Main] in
  let x := Some (ExitError "exit status 128" []) in
  ret (gitServiceHandler ReceivePackService exitWorld
         completeSchedule 0 plainRequest) = Some x /\
  ret (gitServiceHandler ReceivePackService exitWorld
         sched' 0 plainRequest) = Some x /\
  x = x.
Proof.
  intros sched' x.
  assert (H1 : ret (gitServiceHandler ReceivePackService
                      exitWorld completeSchedule 0
                      plainRequest) = Some x)
    by (vm_compute; reflexivity).
  assert (H2 : ret (gitServiceHandler ReceivePackService
                      exitWorld sched' 0 plainRequest) = Some x)
    by (vm_compute; reflexivity).
  split; [exact H1|split; [exact H2|]].
  exact (X8_schedule_does_not_decide _ _ _ _ _ _ _ _ H1 H2).
Defined.

(** X10. The wait group counter counts the output and error goroutines
    that have been announced and have not finished: it never exceeds
    two, it is at least one whenever such a goroutine is about to call
    [wg.Done()] (so the counter never goes negative), and once
    [wg.Wait()] has returned it is zero and none of them is running. *)
Theorem X10_wait_group_counter :
  forall (w : World) (sched : list tid) (ctx : Context) (svc : Service)
         (scmd : ServiceCommand),
    let st := exec w sched ctx svc scmd in
    wg st <= 2 /\
    (forall s, s <> Stdin -> task s st = Some TDefer -> 1 <= wg st) /\
    (wg st = 0 -> forall s, s <> Stdin -> active (task s st) = false) /\
    (In EvWgWait (trace st) ->
     wg st = 0 /\ forall s, s <> Stdin -> active (task s st) = false).
Proof.
  intros w sched ctx svc scmd st. subst st.
  destruct (Inv_exec w ctx svc scmd sched) as [_ (Hwg & _ & _ & _ & _ & _ & Hz & _)].
  destruct (Further_exec w ctx svc scmd sched) as (HC & _).
  pose proof (ct_nowgwait _ _ _ _ _ HC) as Hnw.
  remember (exec w sched ctx svc scmd) as st eqn:Est. clear Est HC.
  unfold cnt in Hwg. cbn [task] in Hwg.
  assert (H0 : wg st = 0 -> forall s, s <> Stdin -> active (task s st) = false).
  { intros E s Hs. rewrite E in Hwg.
    destruct s; [contradiction Hs; reflexivity| |]; cbn [task];
      destruct (active (tStdout st)), (active (tStderr st));
      rewrite ?orb_true_r in Hwg; simpl in Hwg; try reflexivity; lia. }
  split; [|split; [|split]].
  - destruct (_ || active (tStdout st))%bool, (_ || active (tStderr st))%bool;
      lia.
  - intros s Hs Ht.
    destruct s; [contradiction Hs; reflexivity| |]; cbn [task] in Ht;
      rewrite Ht in Hwg; simpl in Hwg; rewrite ?orb_true_r in Hwg;
      [destruct (_ || active (tStderr st))%bool
      |destruct (_ || active (tStdout st))%bool]; lia.
  - exact H0.
  - intros Hin.
    assert (Hr : 11 <= rank (pc st)).
    { destruct (le_gt_dec 11 (rank (pc st))) as [H|H]; [exact H|].
      contradiction (Hnw ltac:(lia) Hin). }
    split; [exact (Hz Hr)|exact (H0 (Hz Hr))].
Qed.

(** X10, at the end of a successful call. *)
Lemma X10_wait_group_counter_witness :
  wg (exec calmWorld completeSchedule 0 UploadPackService plainRequest) = 0.
Proof.
  destruct (X10_wait_group_counter calmWorld completeSchedule 0
              UploadPackService plainRequest) as (_ & _ & _ & H).
  apply H. vm_compute. find_event.
Defined.

(** X11. In one call the handler does each of these at most once: call
    the hook, ask for the pipe of a stream, call [cmd.Start()], start
    the goroutine of a stream, copy a stream, close the stdin pipe, call
    [wg.Done()] for a stream, pass [wg.Wait()], call [cmd.Wait()]. *)
Theorem X11_each_call_at_most_once :
  forall (w : World) (sched : list tid) (ctx : Context) (svc : Service)
         (scmd : ServiceCommand),
    let tr := events (gitServiceHandler svc w sched ctx scmd) in
    once isHook tr /\
    (forall s, once (isPipe s) tr) /\
    once isStart tr /\
    (forall s, once (eq (EvGo s)) tr) /\
    (forall s, once (isCopy s) tr) /\
    once (eq (EvClose Stdin)) tr /\
    (forall s, once (eq (EvWgDone s)) tr) /\
    once (eq EvWgWait) tr /\
    once isWait tr.
Proof.
  intros w sched ctx svc scmd tr. unfold tr. cbn [gitServiceHandler events].
  destruct (Further_exec w ctx svc scmd sched) as (_ & HO & _ & HG).
  destruct HO as [Hh Hp Hs Hg Hc Hd Hw Ha].
  repeat split; auto.
  - exact (Hd Stdin).
  - intros s. destruct s; [|exact (Hd Stdout)|exact (Hd Stderr)].
    intros l1 y l2 Htr <-.
    assert (Hin : In (EvWgDone Stdin)
                     (trace (exec w sched ctx svc scmd))).
    { rewrite Htr. apply in_or_app. right. left. reflexivity. }
    contradiction (gt_done _ _ HG Stdin Hin). reflexivity.
Qed.

(** X12. The main goroutine keeps its order: every supplied stream has
    its pipe before [cmd.Start()] is called; no goroutine is started
    and [cmd.Wait()] is not called before [cmd.Start()] has succeeded;
    and when [cmd.Wait()] is called, the streams with a copy goroutine
    are exactly the supplied ones. *)
Theorem X12_order_of_the_main_goroutine :
  forall (w : World) (sched : list tid) (ctx : Context) (svc : Service)
         (scmd : ServiceCommand),
    let tr := events (gitServiceHandler svc w sched ctx scmd) in
    (forall s, supplied scmd s = true ->
       before (eq (EvPipe s None)) isStart tr) /\
    before isStarted isGo tr /\
    before isStarted isWait tr /\
    (forall s, In (EvGo s) tr -> supplied scmd s = true) /\
    (forall r s, In (EvWait r) tr -> supplied scmd s = true ->
       In (EvGo s) tr).
Proof.
  intros w sched ctx svc scmd tr. unfold tr. cbn [gitServiceHandler events].
  destruct (Full_exec w ctx svc scmd sched)
    as ([_ (_ & _ & _ & _ & _ & _ & _ & _ & _ & Hsup)] & _ & HT & _).
  destruct (Further_exec w ctx svc scmd sched) as (_ & _ & HMo & HG).
  destruct HMo as [Hps Hsg Hsw].
  split; [exact Hps|split; [exact Hsg|split; [exact Hsw|split]]].
  - intros s Hs. apply Hsup. apply (tt_spawned _ _ HT). exact Hs.
  - exact (gt_wait_go _ _ HG).
Qed.

(** X12, for the stdin goroutine of a complete call. *)
Lemma X12_order_of_the_main_goroutine_witness :
  In (EvGo Stdin)
     (events (gitServiceHandler UploadPackService calmWorld completeSchedule
                0 plainRequest)).
Proof.
  destruct (X12_order_of_the_main_goroutine calmWorld completeSchedule 0
              UploadPackService plainRequest) as (_ & _ & _ & _ & H).
  apply (H None Stdin).
  - vm_compute. find_event.
  - reflexivity.
Defined.

(** X13. The only things the handler logs are failed copies of stdin
    and stdout, each under the message of its stream and with the error
    of that copy; a call whose stdin and stdout copies succeed logs
    nothing, also when the stderr copy fails. *)
Theorem X13_what_is_logged :
  forall (w : World) (sched : list tid) (ctx : Context) (svc : Service)
         (scmd : ServiceCommand),
    let o := gitServiceHandler svc w sched ctx scmd in
    (forall f a, In (EvLog f a) (events o) ->
       exists s e,
         (s = Stdin \/ s = Stdout) /\ f = logFormat s /\ a = Some e /\
         copyErr w s = Some e) /\
    (copyErr w Stdin = None -> copyErr w Stdout = None ->
     forall f a, ~ In (EvLog f a) (events o)).
Proof.
  intros w sched ctx svc scmd o. unfold o. cbn [gitServiceHandler events].
  destruct (Full_exec w ctx svc scmd sched) as (_ & _ & _ & HL & _).
  remember (exec w sched ctx svc scmd) as st eqn:Est. clear Est.
  assert (H : forall f a, In (EvLog f a) (trace st) ->
            exists s e,
              (s = Stdin \/ s = Stdout) /\ f = logFormat s /\ a = Some e /\
              copyErr w s = Some e).
  { intros f a Hin.
    destruct (lt_log _ _ HL f a Hin) as (s & e & Hs & Hf & Ha & Hc).
    exists s, e. repeat split; try assumption.
    destruct s; auto. contradiction Hs. reflexivity. }
  split; [exact H|].
  intros Hi Ho f a Hin.
  destruct (H f a Hin) as (s & e & [->| ->] & _ & _ & Hc); congruence.
Qed.

(** X13, for a call whose stdin copy fails. *)
Lemma X13_what_is_logged_witness :
  exists s e,
    (s = Stdin \/ s = Stdout) /\
    "gitServiceHandler: failed to copy stdin: %v" = logFormat s /\
    Some (ErrorString "read: connection reset") = Some e /\
    copyErr stdinFaultWorld s = Some e.
Proof.
  destruct (X13_what_is_logged stdinFaultWorld
              (completeSchedule ++ [Task Stdin; Task Stdin]) 0
              UploadPackService plainRequest) as [H _].
  apply H. vm_compute. find_event.
Defined.

(** X14. A failed copy of stdin or stdout is logged, with its error, by
    the next statement of its goroutine. *)
Theorem X14_stdin_stdout_faults_are_logged :
  forall (w : World) (sched : list tid) (ctx : Context) (svc : Service)
         (scmd : ServiceCommand) (s : stream) (e : error),
    s <> Stderr ->
    In (EvCopy s (Some e)) (events (gitServiceHandler svc w sched ctx scmd)) ->
    In (EvLog (logFormat s) (Some e))
       (events (gitServiceHandler svc w (sched ++ [Task s]) ctx scmd)).
Proof.
  intros w sched ctx svc scmd s e. apply other_copy_errors_are_logged.
Qed.

(** X14, for a failed stdin copy. *)
Lemma X14_stdin_stdout_faults_are_logged_witness :
  In (EvLog "gitServiceHandler: failed to copy stdin: %v"
        (Some (ErrorString "read: connection reset")))
     (events (gitServiceHandler UploadPackService stdinFaultWorld
                ((repeat Main 6 ++ [Task Stdin]) ++ [Task Stdin]) 0
                plainRequest)).
Proof.
  apply (X14_stdin_stdout_faults_are_logged stdinFaultWorld
           (repeat Main 6 ++ [Task Stdin]) 0 UploadPackService plainRequest
           Stdin (ErrorString "read: connection reset")).
  - discriminate.
  - vm_compute. find_event.
Defined.

(** X15. Once the copy of a stream has ended, failed or not, two more
    turns of its goroutine bring the deferred call: the stdin pipe is
    closed, [wg.Done()] is called for stdout and stderr.  A failed copy
    therefore never keeps [wg.Wait()] waiting. *)
Theorem X15_deferred_call_follows_copy :
  forall (w : World) (sched : list tid) (ctx : Context) (svc : Service)
         (scmd : ServiceCommand) (s : stream) (r : option error),
    In (EvCopy s r) (events (gitServiceHandler svc w sched ctx scmd)) ->
    In (deferred s)
       (events (gitServiceHandler svc w (sched ++ [Task s; Task s])
                  ctx scmd)).
Proof.
  intros w sched ctx svc scmd s r. cbn [gitServiceHandler events].
  intros Hin.
  destruct (Full_exec w ctx svc scmd sched) as (_ & _ & HT & _).
  destruct (tt_copy _ _ HT s r Hin) as (_ & Hn & Hc).
  destruct (Full_exec w ctx svc scmd (sched ++ [Task s; Task s]))
    as (_ & _ & HT' & _).
  apply (tt_done _ _ HT').
  change (sched ++ [Task s; Task s]) with (sched ++ [Task s] ++ [Task s]).
  rewrite app_assoc, !exec_snoc, !task_turn.
  destruct (task s (exec w sched ctx svc scmd)) as [[|r0| |]|];
    try congruence; reflexivity.
Qed.

(** X15, for a failed stderr copy. *)
Lemma X15_deferred_call_follows_copy_witness :
  In (EvWgDone Stderr)
     (events (gitServiceHandler UploadPackService stderrFaultWorld
                ((repeat Main 10 ++ [Task Stderr])
                 ++ [Task Stderr; Task Stderr]) 0 plainRequest)).
Proof.
  apply (X15_deferred_call_follows_copy stderrFaultWorld
           (repeat Main 10 ++ [Task Stderr]) 0 UploadPackService
           plainRequest Stderr
           (Some (ErrorString "write: broken pipe"))).
  vm_compute. find_event.
Defined.

(** X16. How the copies end does not decide what the handler returns:
    in two worlds that differ only in the results of [io.Copy], two
    runs of one call that both return, return the same. *)
Theorem X16_copy_faults_do_not_decide :
  forall (w : World) (copy' : stream -> option error)
         (sched sched' : list tid) (ctx : Context) (svc : Service)
         (scmd : ServiceCommand) (x x' : option error),
    let w' := {| Environ := Environ w; pipeErr := pipeErr w;
                 startErr := startErr w; copyErr := copy';
                 waitErr := waitErr w |} in
    ret (gitServiceHandler svc w sched ctx scmd) = Some x ->
    ret (gitServiceHandler svc w' sched' ctx scmd) = Some x' ->
    x = x'.
Proof.
  intros w copy' sched sched' ctx svc scmd x x'.
  apply copy_errors_do_not_decide.
Qed.

(** X16, for a call whose stdin copy fails and one whose copies
    succeed. *)
Lemma X16_copy_faults_do_not_decide_witness :
  ret (gitServiceHandler UploadPackService calmWorld completeSchedule 0
         plainRequest) = Some None /\
  ret (gitServiceHandler UploadPackService stdinFaultWorld
         (completeSchedule ++ [Task Stdin; Task Stdin; Task Stdin]) 0
         plainRequest) = Some None /\
  @None error = None.
Proof.
  assert (H1 : ret (gitServiceHandler UploadPackService calmWorld
                      completeSchedule 0 plainRequest) = Some None)
    by (vm_compute; reflexivity).
  assert (H2 : ret (gitServiceHandler UploadPackService stdinFaultWorld
                      (completeSchedule ++ [Task Stdin; Task Stdin; Task Stdin])
                      0 plainRequest) = Some None)
    by (vm_compute; reflexivity).
  split; [exact H1|split; [exact H2|]].
  exact (X16_copy_faults_do_not_decide calmWorld (copyErr stdinFaultWorld)
           _ _ _ _ _ _ _ H1 H2).
Defined.
